(** * Resilient remote connection manager: [CloudDatabase]

    A shallow embedding of the class [CloudDatabase] (the part of
    [main/main.ts] that starts with [import mysql from 'mysql2/promise']),
    followed by the properties of its connection life cycle, liveness
    probing, healing and retry policy.

    The class is asynchronous JavaScript over the [mysql2] driver.  Its
    methods are embedded as computations over
    - the four private fields of the instance ([CloudDatabase]), and
    - a [World]: the answers the driver gives to the awaited calls, in the
      order in which they are awaited, the handles handed out so far, and
      the log of everything the instance did to the outside. *)

From Stdlib Require Import String Ascii List ZArith Bool Arith Lia.
From Stdlib Require Strings.Byte DecimalNat DecimalString.
Import ListNotations.
Open Scope string_scope.
Open Scope Z_scope.
Open Scope list_scope.

(** ** Data model *)

(** [interface MySQLConfig]. *)
Record MySQLConfig := mkConfig {
  host : string;
  port : Z;
  database : string;
  user : string;
  password : string
}.

(** A JavaScript [Error] object.  The manager only ever reads [message];
    [code] stands for the other properties a driver error carries. *)
Record JsError := mkError {
  message : string;
  code : option string
}.

(** [new Error(msg)]. *)
Definition Error (msg : string) : JsError := mkError msg None.

(** Anything may be thrown in JavaScript: an [Error] instance, or another
    value, of which only [String(value)] matters to the manager. *)
Inductive Thrown :=
| ThrownError (e : JsError)
| ThrownValue (text : string).

(** [error instanceof Error ? error : new Error(String(error))]. *)
Definition toError (t : Thrown) : JsError :=
  match t with
  | ThrownError e => e
  | ThrownValue text => Error text
  end.

(** Handles of driver pools ([mysql.Pool]) and of timers ([NodeJS.Timeout]). *)
Definition Pool := nat.
Definition Timeout := nat.
Bind Scope nat_scope with Pool Timeout.

(** The private fields of [class CloudDatabase]. *)
Record CloudDatabase := mkCloudDatabase {
  pool : option Pool;
  config : option MySQLConfig;
  isReconnecting : bool;
  heartbeatInterval : option Timeout
}.

(** Field initialisers of the class. *)
Definition new_CloudDatabase : CloudDatabase :=
  mkCloudDatabase None None false None.

(** [private readonly HEARTBEAT_INTERVAL = 60 * 1000]. *)
Definition HEARTBEAT_INTERVAL : Z := 60 * 1000.

(** The options object given to [mysql.createPool]. *)
Record PoolOptions := mkPoolOptions {
  opt_host : string;
  opt_port : Z;
  opt_database : string;
  opt_user : string;
  opt_password : string;
  waitForConnections : bool;
  connectionLimit : Z;
  queueLimit : Z;
  charset : string;
  connectTimeout : Z;
  enableKeepAlive : bool;
  keepAliveInitialDelay : Z
}.

Definition poolOptions (cfg : MySQLConfig) : PoolOptions :=
  {| opt_host := host cfg;
     opt_port := port cfg;
     opt_database := database cfg;
     opt_user := user cfg;
     opt_password := password cfg;
     waitForConnections := true;
     connectionLimit := 5;
     queueLimit := 0;
     charset := "utf8mb4";
     connectTimeout := 10000;
     enableKeepAlive := true;
     keepAliveInitialDelay := 0 |}.

(** How an awaited promise ends: fulfilled, rejected, or never settled. *)
Inductive Promise (T : Type) :=
| Resolved (v : T)
| Rejected (e : Thrown)
| Unsettled.
Arguments Resolved {T} v.
Arguments Rejected {T} e.
Arguments Unsettled {T}.

(** What the instance does to the outside, in order.  A deadline is the
    delay of the [setTimeout] a call is raced against with [Promise.race],
    [None] when the call is awaited bare. *)
Inductive Event :=
| CreatePool (p : Pool) (opts : PoolOptions)
| GetConnection (p : Pool) (deadline : option Z)
| Query (p : Pool) (sql : string) (deadline : option Z)
| Release (p : Pool)
| EndPool (p : Pool)
| SetInterval (t : Timeout) (ms : Z)
| ClearInterval (t : Timeout)
| Sleep (ms : Z)
| CallQueryFn (attempt : nat) (p : Pool).

(** The environment of the instance.
    - [remote n] is how the [n]-th promise the instance obtains from the
      driver ends ([getConnection], [query], [end]);
    - [others n] is what the other tasks of the event loop do to the fields
      of the instance during the [n]-th sleep of a waiting loop;
    - [handles] is the next fresh pool or timer handle. *)
Record World := mkWorld {
  remote : nat -> Promise unit;
  asked : nat;
  others : nat -> CloudDatabase -> CloudDatabase;
  slept : nat;
  handles : nat;
  log : list Event
}.

Record Sys := mkSys {
  this : CloudDatabase;
  world : World
}.

(** ** Strings *)

(** [String.prototype.includes]. *)
Fixpoint includes (s sub : string) : bool :=
  if prefix sub s then true
  else match s with
       | EmptyString => false
       | String _ rest => includes rest sub
       end.

(** ** Computations *)

(** How a call ends: it returns, it throws, or it never resumes from an
    [await] on a promise that does not settle. *)
Inductive Completion (A : Type) :=
| Normal (a : A)
| Throw (e : Thrown)
| Stalled.
Arguments Normal {A} a.
Arguments Throw {A} e.
Arguments Stalled {A}.

Definition M (A : Type) : Type := Sys -> Completion A * Sys.

Definition ret {A} (a : A) : M A := fun s => (Normal a, s).

Definition bind {A B} (m : M A) (k : A -> M B) : M B :=
  fun s =>
    match m s with
    | (Normal a, s') => k a s'
    | (Throw e, s') => (Throw e, s')
    | (Stalled, s') => (Stalled, s')
    end.

Declare Scope js_scope.
Delimit Scope js_scope with js.
Notation "x <- m ;; k" := (bind m (fun x => k))
  (at level 61, m at next level, right associativity) : js_scope.
Notation "m ;; k" := (bind m (fun _ => k))
  (at level 61, right associativity) : js_scope.
Open Scope js_scope.

(** [throw e]. *)
Definition throw {A} (e : Thrown) : M A := fun s => (Throw e, s).

(** [try { m } catch (error) { h error }]. *)
Definition try_catch {A} (m : M A) (h : Thrown -> M A) : M A :=
  fun s =>
    match m s with
    | (Normal a, s') => (Normal a, s')
    | (Throw e, s') => h e s'
    | (Stalled, s') => (Stalled, s')
    end.

(** [try { m } finally { f }]: [f] runs after [m] has returned or thrown,
    and the way [m] ended stands unless [f] ends abruptly itself. *)
Definition try_finally {A} (m : M A) (f : M unit) : M A :=
  fun s =>
    match m s with
    | (Normal a, s') =>
        match f s' with
        | (Normal _, s'') => (Normal a, s'')
        | (Throw e, s'') => (Throw e, s'')
        | (Stalled, s'') => (Stalled, s'')
        end
    | (Throw e, s') =>
        match f s' with
        | (Normal _, s'') => (Throw e, s'')
        | (Throw e', s'') => (Throw e', s'')
        | (Stalled, s'') => (Stalled, s'')
        end
    | (Stalled, s') => (Stalled, s')
    end.

(** Reading and writing the fields of [this]. *)
Definition get_this : M CloudDatabase := fun s => (Normal (this s), s).

Definition set_pool (p : option Pool) : M unit :=
  fun s =>
    let t := this s in
    (Normal tt,
     mkSys (mkCloudDatabase p (config t) (isReconnecting t) (heartbeatInterval t))
           (world s)).

Definition set_config (c : option MySQLConfig) : M unit :=
  fun s =>
    let t := this s in
    (Normal tt,
     mkSys (mkCloudDatabase (pool t) c (isReconnecting t) (heartbeatInterval t))
           (world s)).

Definition set_isReconnecting (b : bool) : M unit :=
  fun s =>
    let t := this s in
    (Normal tt,
     mkSys (mkCloudDatabase (pool t) (config t) b (heartbeatInterval t))
           (world s)).

Definition set_heartbeatInterval (h : option Timeout) : M unit :=
  fun s =>
    let t := this s in
    (Normal tt,
     mkSys (mkCloudDatabase (pool t) (config t) (isReconnecting t) h)
           (world s)).

(** Appending to the log. *)
Definition emit (e : Event) : M unit :=
  fun s =>
    let w := world s in
    (Normal tt,
     mkSys (this s)
           (mkWorld (remote w) (asked w) (others w) (slept w) (handles w)
                    (log w ++ [e]))).

(** A fresh handle. *)
Definition fresh : M nat :=
  fun s =>
    let w := world s in
    (Normal (handles w),
     mkSys (this s)
           (mkWorld (remote w) (asked w) (others w) (slept w) (S (handles w))
                    (log w))).

(** The next promise of the driver. *)
Definition ask : M (Promise unit) :=
  fun s =>
    let w := world s in
    (Normal (remote w (asked w)),
     mkSys (this s)
           (mkWorld (remote w) (S (asked w)) (others w) (slept w) (handles w)
                    (log w))).

(** [await promise]. *)
Definition await {A} (p : Promise A) : M A :=
  fun s =>
    match p with
    | Resolved v => (Normal v, s)
    | Rejected e => (Throw e, s)
    | Unsettled => (Stalled, s)
    end.

(** [await Promise.race([promise, new Promise((_, reject) =>
    setTimeout(() => reject(new Error(msg)), ms))])]: a promise that has
    not settled when the timer fires loses the race. *)
Definition await_race {A} (p : Promise A) (msg : string) : M A :=
  fun s =>
    match p with
    | Resolved v => (Normal v, s)
    | Rejected e => (Throw e, s)
    | Unsettled => (Throw (ThrownError (Error msg)), s)
    end.

(** ** The driver *)

(** [mysql.createPool({...})]: synchronous, no connection is made yet. *)
Definition createPool (cfg : MySQLConfig) : M Pool :=
  p <- fresh ;;
  emit (CreatePool p (poolOptions cfg)) ;;
  ret p.

(** Awaiting a promise of the driver, bare or raced against a timer that
    rejects with [new Error(msg)] after [ms] milliseconds. *)
Definition settle (deadline : option (Z * string)) : M unit :=
  promise <- ask ;;
  match deadline with
  | None => await promise
  | Some (_, msg) => await_race promise msg
  end.

(** [await pool.getConnection()]. *)
Definition pool_getConnection (p : Pool) (deadline : option (Z * string))
  : M unit :=
  emit (GetConnection p (option_map fst deadline)) ;;
  settle deadline.

(** [await connection.query(sql)] on a connection borrowed from [p]. *)
Definition connection_query (p : Pool) (sql : string)
  (deadline : option (Z * string)) : M unit :=
  emit (Query p sql (option_map fst deadline)) ;;
  settle deadline.

(** [connection.release()]. *)
Definition connection_release (p : Pool) : M unit := emit (Release p).

(** [await pool.end()]. *)
Definition pool_end (p : Pool) : M unit :=
  emit (EndPool p) ;;
  settle None.

(** [pool.end()] without [await]: the promise is dropped. *)
Definition pool_end_detached (p : Pool) : M unit :=
  emit (EndPool p) ;;
  _ <- ask ;;
  ret tt.

(** [try { await pool.end(); } catch (e) { }]. *)
Definition pool_end_quietly (p : Pool) : M unit :=
  try_catch (pool_end p) (fun _ => ret tt).

(** [await new Promise(resolve => setTimeout(resolve, ms))]. *)
Definition sleep (ms : Z) : M unit := emit (Sleep ms).

(** The same inside a loop that waits for another task: the other tasks
    of the event loop run meanwhile and may write the fields.  Every other
    [await] is modelled without interleaving: there the instance is the
    only task that touches its fields. *)
Definition sleep_yielding (ms : Z) : M unit :=
  emit (Sleep ms) ;;
  fun s =>
    let w := world s in
    (Normal tt,
     mkSys (others w (slept w) (this s))
           (mkWorld (remote w) (asked w) (others w) (S (slept w)) (handles w)
                    (log w))).

(** ** The methods of [CloudDatabase] *)

(** The condition under which [connect] keeps the pool it has: host, port,
    database and user agree; the password is not compared.  The port is an
    integer here: a port that is [NaN], which [===] tells apart from
    itself, is left out. *)
Definition sameTarget (a b : MySQLConfig) : bool :=
  String.eqb (host a) (host b) &&
  Z.eqb (port a) (port b) &&
  String.eqb (database a) (database b) &&
  String.eqb (user a) (user b).

(** [private stopHeartbeat(): void]. *)
Definition stopHeartbeat : M unit :=
  t <- get_this ;;
  match heartbeatInterval t with
  | Some h => emit (ClearInterval h) ;; set_heartbeatInterval None
  | None => ret tt
  end.

(** [private startHeartbeat(): void].  The callback of the timer is
    [performHeartbeat]. *)
Definition startHeartbeat : M unit :=
  stopHeartbeat ;;
  h <- fresh ;;
  emit (SetInterval h HEARTBEAT_INTERVAL) ;;
  set_heartbeatInterval (Some h).

(** [if (this.pool) { try { await this.pool.end(); } catch (e) { }
    this.pool = null; }], as it stands in [connect] (twice),
    [performHeartbeat] and [ensureConnectionValid]. *)
Definition closeOldPool : M unit :=
  t <- get_this ;;
  match pool t with
  | Some p => pool_end_quietly p ;; set_pool None
  | None => ret tt
  end.

(** [async connect(config: MySQLConfig): Promise<void>]. *)
Definition connect (cfg : MySQLConfig) : M unit :=
  t <- get_this ;;
  reused <-
    match pool t, config t with
    | Some p, Some c =>
        if sameTarget c cfg then
          try_catch
            (pool_getConnection p None ;;
             connection_release p ;;
             ret true)
            (fun _ => closeOldPool ;; ret false)
        else ret false
    | _, _ => ret false
    end ;;
  if reused : bool then ret tt
  else
    set_config (Some cfg) ;;
    p <- createPool cfg ;;
    set_pool (Some p) ;;
    try_catch
      (pool_getConnection p None ;;
       connection_release p ;;
       startHeartbeat)
      (fun error => closeOldPool ;; throw error).

(** [disconnect(): void]. *)
Definition disconnect : M unit :=
  stopHeartbeat ;;
  (t <- get_this ;;
   match pool t with
   | Some p => pool_end_detached p ;; set_pool None
   | None => ret tt
   end) ;;
  set_config None.

(** The [try] block of [performHeartbeat]: a connection is acquired
    within 5 seconds, [SELECT 1] is awaited bare, the connection goes back. *)
Definition heartbeatProbe (p : Pool) : M unit :=
  pool_getConnection p (Some (5000, "心跳检测超时")) ;;
  connection_query p "SELECT 1" None ;;
  connection_release p.

(** [private async performHeartbeat(): Promise<void>]. *)
Definition performHeartbeat : M unit :=
  t <- get_this ;;
  match pool t, config t with
  | Some p, Some _ =>
      try_catch
        (heartbeatProbe p)
        (fun _ =>
           t1 <- get_this ;;
           match isReconnecting t1, config t1 with
           | false, Some c =>
               set_isReconnecting true ;;
               try_finally
                 (try_catch
                    (closeOldPool ;; connect c)
                    (fun _ => stopHeartbeat))
                 (set_isReconnecting false)
           | _, _ => ret tt
           end)
  | _, _ => stopHeartbeat
  end.

(** [while (this.isReconnecting && retries < 20) { await sleep(100);
    retries++; }], with [left = 20 - retries]. *)
Fixpoint waitForReconnect (left : nat) : M unit :=
  match left with
  | O => ret tt
  | S left' =>
      t <- get_this ;;
      if isReconnecting t then sleep_yielding 100 ;; waitForReconnect left'
      else ret tt
  end.

Definition notConnected : Thrown :=
  ThrownError (Error "MySQL 未连接，请先配置数据库连接").

(** The tail of the [catch] block of [ensureConnectionValid], from
    [this.isReconnecting = true] to its last [return this.pool]: the
    caller's own reconnection. *)
Definition reconnectNow : M Pool :=
  set_isReconnecting true ;;
  try_finally
    (try_catch
       (stopHeartbeat ;;
        closeOldPool ;;
        t <- get_this ;;
        match config t with
        | Some c => connect c
        | None => ret tt
        end)
       (fun _ => throw (ThrownError (Error "数据库连接已断开，无法自动重连"))))
    (set_isReconnecting false) ;;
  t <- get_this ;;
  match pool t with
  | Some p => ret p
  | None => throw notConnected
  end.

(** The [try] block of [ensureConnectionValid] up to its [return]: a
    connection is acquired within 2 seconds, [SELECT 1] answers within 3
    seconds, the connection goes back. *)
Definition validityProbe (p : Pool) : M unit :=
  pool_getConnection p (Some (2000, "获取连接超时")) ;;
  connection_query p "SELECT 1" (Some (3000, "查询超时")) ;;
  connection_release p.

(** [private async ensureConnectionValid(): Promise<mysql.Pool>]. *)
Definition ensureConnectionValid : M Pool :=
  t <- get_this ;;
  match pool t, config t with
  | Some p, Some _ =>
      try_catch
        (validityProbe p ;;
         ret p)
        (fun _ =>
           t1 <- get_this ;;
           waited <-
             (if isReconnecting t1 then
                waitForReconnect 20 ;;
                t2 <- get_this ;;
                match pool t2, config t2 with
                | Some p2, Some _ => ret (Some p2)
                | _, _ => ret None
                end
              else ret None) ;;
           match waited with
           | Some p2 => ret p2
           | None => reconnectNow
           end)
  | _, _ => throw notConnected
  end.

(** The test on [lastError.message] in [executeQueryWithRetry]. *)
Definition isConnectionError (e : JsError) : bool :=
  includes (message e) "连接" ||
  includes (message e) "timeout" ||
  includes (message e) "ECONNRESET" ||
  includes (message e) "PROTOCOL_CONNECTION_LOST".

(** [if (this.pool) { try { this.stopHeartbeat(); await this.pool.end(); }
    catch (e) { } this.pool = null; }] of [executeQueryWithRetry]. *)
Definition resetPool : M unit :=
  t <- get_this ;;
  match pool t with
  | Some p =>
      try_catch (stopHeartbeat ;; pool_end p) (fun _ => ret tt) ;;
      set_pool None
  | None => ret tt
  end.

(** [if (i < retries && this.config) { await sleep(500);
    try { await this.connect(this.config); } catch (e) { } }]. *)
Definition backoffAndReopen (i retries : nat) : M unit :=
  t <- get_this ;;
  match Nat.ltb i retries, config t with
  | true, Some c =>
      sleep 500 ;;
      try_catch (connect c) (fun _ => ret tt)
  | _, _ => ret tt
  end.

(** The [for (let i = 0; i <= retries; i++)] loop of
    [executeQueryWithRetry] and the [throw] after it, with
    [left = retries + 1 - i].  [queryFn i p] is how the promise of the
    callback ends when it is called with pool [p] in round [i]. *)
Fixpoint retryLoop {T} (queryFn : nat -> Pool -> Promise T)
  (retries left i : nat) (lastError : option JsError) : M T :=
  match left with
  | O =>
      throw (ThrownError match lastError with
                         | Some e => e
                         | None => Error "查询失败"
                         end)
  | S left' =>
      try_catch
        (p <- ensureConnectionValid ;;
         emit (CallQueryFn i p) ;;
         await (queryFn i p))
        (fun error =>
           let lastError := toError error in
           if isConnectionError lastError then
             resetPool ;;
             backoffAndReopen i retries ;;
             retryLoop queryFn retries left' (S i) (Some lastError)
           else throw (ThrownError lastError))
  end.

(** [private async executeQueryWithRetry<T>(queryFn, retries = 1)]. *)
Definition executeQueryWithRetry {T} (queryFn : nat -> Pool -> Promise T)
  (retries : nat) : M T :=
  retryLoop queryFn retries (S retries) 0 None.

(** The call the data-access methods make: [retries] left to its default. *)
Definition execute {T} (queryFn : nat -> Pool -> Promise T) : M T :=
  executeQueryWithRetry queryFn 1.

(** ** Observations *)

(** The system after one more event. *)
Definition logged (e : Event) (s : Sys) : Sys := snd (emit e s).

Definition is_call (e : Event) : bool :=
  match e with
  | CallQueryFn _ _ => true
  | _ => false
  end.

(** How often the callback of [executeQueryWithRetry] was called. *)
Definition invocations (l : list Event) : nat := length (filter is_call l).

Definition is_createPool (e : Event) : bool :=
  match e with
  | CreatePool _ _ => true
  | _ => false
  end.

(** The pools that a log leaves open: created, and not ended since. *)
Definition openPools (l : list Event) : list Pool :=
  fold_left
    (fun open e =>
       match e with
       | CreatePool p _ => open ++ [p]
       | EndPool p => remove Nat.eq_dec p open
       | _ => open
       end)
    l [].

(** The events of [stopHeartbeat] in a given state of the fields. *)
Definition clearing (t : CloudDatabase) : list Event :=
  match heartbeatInterval t with
  | Some h => [ClearInterval h]
  | None => []
  end.

(** The states of an instance between two calls of its methods, when the
    calls come one after the other: a fresh instance, and what [connect],
    [disconnect], a tick of the heartbeat timer and
    [executeQueryWithRetry] leave when they have returned or thrown. *)
Inductive reachable : Sys -> Prop :=
| reach_new w :
    reachable (mkSys new_CloudDatabase w)
| reach_connect s cfg :
    reachable s ->
    fst (connect cfg s) <> Stalled ->
    reachable (snd (connect cfg s))
| reach_disconnect s :
    reachable s ->
    reachable (snd (disconnect s))
| reach_tick s :
    reachable s ->
    heartbeatInterval (this s) <> None ->
    fst (performHeartbeat s) <> Stalled ->
    reachable (snd (performHeartbeat s))
| reach_execute (T : Type) (queryFn : nat -> Pool -> Promise T) retries s :
    reachable s ->
    fst (executeQueryWithRetry queryFn retries s) <> Stalled ->
    reachable (snd (executeQueryWithRetry queryFn retries s)).

(** The fields as they are between calls: the flag is down, and a pool
    comes with a timer and a configuration. *)
Definition consistent (t : CloudDatabase) : Prop :=
  isReconnecting t = false /\
  (pool t <> None -> heartbeatInterval t <> None /\ config t <> None).

(** A computation that only appends to the log, and only events that
    pass [ok]. *)
Definition emits {A} (ok : Event -> bool) (m : M A) : Prop :=
  forall s, exists tr,
    log (world (snd (m s))) = log (world s) ++ tr /\ forallb ok tr = true.

Definition any_event (e : Event) : bool := true.

(** ** Scenarios *)

Definition exampleConfig : MySQLConfig :=
  mkConfig "db.example.com" 3306 "notes" "u" "p".

(** The same target with another password. *)
Definition rotatedConfig : MySQLConfig :=
  mkConfig "db.example.com" 3306 "notes" "u" "p2".

(** Another host. *)
Definition otherConfig : MySQLConfig :=
  mkConfig "db2.example.com" 3306 "notes" "u" "p".

(** No other task writes the fields. *)
Definition alone : nat -> CloudDatabase -> CloudDatabase := fun _ t => t.

(** A fresh instance in front of a driver that answers as told. *)
Definition startWith (answers : nat -> Promise unit) : Sys :=
  mkSys new_CloudDatabase (mkWorld answers 0 alone 0 0 []).

(** A driver whose every promise is fulfilled. *)
Definition healthy : nat -> Promise unit := fun _ => Resolved tt.

(** A driver whose [n]-th promise is rejected with [e]. *)
Definition failingAt (n : nat) (e : Thrown) : nat -> Promise unit :=
  fun k => if Nat.eqb k n then Rejected e else Resolved tt.

Definition connectionReset : Thrown :=
  ThrownError (mkError "read ECONNRESET" (Some "ECONNRESET")).

Definition duplicateEntry : Thrown :=
  ThrownError (mkError "Duplicate entry '5' for key 'PRIMARY'"
                       (Some "ER_DUP_ENTRY")).

(** The instance after a first successful [connect(exampleConfig)]. *)
Definition connected (answers : nat -> Promise unit) : Sys :=
  snd (connect exampleConfig (startWith answers)).

(** The instance after [connect(exampleConfig)] went well and a
    [connect(otherConfig)] then failed to borrow its first connection. *)
Definition failedSwitch : Sys :=
  snd (connect otherConfig (connected (failingAt 1 connectionReset))).


(** The callback of the scenario: rejected with a connection reset in
    round 0, fulfilled with 42 afterwards. *)
Definition flakyQuery : nat -> Pool -> Promise Z :=
  fun i _ =>
    match i with
    | O => Rejected connectionReset
    | S _ => Resolved 42
    end.

(** A caller whose probe fails while the flag is up; during its first
    sleep the reconnection of the other task fails, which leaves the pool
    null and the flag down; after that the driver is back. *)
Definition waitingCaller : Sys :=
  mkSys (mkCloudDatabase (Some 0%nat) (Some exampleConfig) true (Some 1%nat))
        (mkWorld (failingAt 0 connectionReset) 0
                 (fun _ t => mkCloudDatabase None (config t) false None)
                 0 2 []).

(** ** Further observations *)

(** The error [ensureConnectionValid] throws when its own reconnection
    fails. *)
Definition cannotReconnect : Thrown :=
  ThrownError (Error "数据库连接已断开，无法自动重连").

(** The timers that a log leaves set: set, and not cleared since. *)
Definition activeTimers (l : list Event) : list Timeout :=
  fold_left
    (fun active e =>
       match e with
       | SetInterval t _ => active ++ [t]
       | ClearInterval t => remove Nat.eq_dec t active
       | _ => active
       end)
    l [].

(** What a field holds, as a list. *)
Definition stored {A} (field : option A) : list A :=
  match field with
  | Some a => [a]
  | None => []
  end.

(** The pool the instance holds is the only pool open. *)
Definition tidy (s : Sys) : Prop :=
  openPools (log (world s)) = stored (pool (this s)).

(** The timer the instance holds is the only timer set. *)
Definition ticking (s : Sys) : Prop :=
  activeTimers (log (world s)) = stored (heartbeatInterval (this s)).

(** ** The handlers of the main process *)

(** What the handlers return to the renderer:
    [{ success: true }] or [{ success: false, error: message }]. *)
Record IpcResult := mkResult {
  success : bool;
  error : option string
}.

(** [error instanceof Error ? error.message : String(error)]. *)
Definition failure (e : Thrown) : IpcResult :=
  mkResult false (Some (message (toError e))).

(** The call [saveCloudConfig] makes into [fs]:
    [fs.writeFileSync(getConfigPath(), JSON.stringify(config, null, 2))],
    with the object that is serialised. *)
Inductive FsCall :=
| WriteCloudConfig (content : MySQLConfig).

(** The module-level state of [main.ts] that the cloud handlers use:
    [let cloudDb: CloudDatabase | null], the calls made into [fs], and the
    environment of the instances. *)
Record Main := mkMain {
  cloudDb : option CloudDatabase;
  fsLog : list FsCall;
  env : World
}.

(** [saveCloudConfig(config)]: the write is attempted, and an exception
    of [fs] is caught and logged. *)
Definition saveCloudConfig (cfg : MySQLConfig) (calls : list FsCall)
  : list FsCall :=
  calls ++ [WriteCloudConfig cfg].

(** [ipcMain.handle('test-cloud-db', ...)]: a throw-away instance. *)
Definition handleTestCloudDb (cfg : MySQLConfig) (st : Main)
  : Completion IpcResult * Main :=
  let (r, s) :=
    try_catch
      (connect cfg ;;
       disconnect ;;
       ret (mkResult true None))
      (fun e => ret (failure e))
      (mkSys new_CloudDatabase (env st)) in
  (r, mkMain (cloudDb st) (fsLog st) (world s)).

(** [ipcMain.handle('connect-cloud-db', ...)]. *)
Definition handleConnectCloudDb (cfg : MySQLConfig) (st : Main)
  : Completion IpcResult * Main :=
  let disconnected : Completion unit * option CloudDatabase * World :=
    match cloudDb st with
    | Some old =>
        let (r, s) := disconnect (mkSys old (env st)) in
        (r, Some (this s), world s)
    | None => (Normal tt, None, env st)
    end in
  match disconnected with
  | (Normal _, _, w1) =>
      match connect cfg (mkSys new_CloudDatabase w1) with
      | (Normal _, s2) =>
          (Normal (mkResult true None),
           mkMain (Some (this s2)) (saveCloudConfig cfg (fsLog st)) (world s2))
      | (Throw e, s2) =>
          (Normal (failure e), mkMain (Some (this s2)) (fsLog st) (world s2))
      | (Stalled, s2) =>
          (Stalled, mkMain (Some (this s2)) (fsLog st) (world s2))
      end
  | (Throw e, old, w1) => (Normal (failure e), mkMain old (fsLog st) w1)
  | (Stalled, old, w1) => (Stalled, mkMain old (fsLog st) w1)
  end.

(** [ipcMain.handle('disconnect-cloud-db', ...)]. *)
Definition handleDisconnectCloudDb (st : Main) : Completion IpcResult * Main :=
  match cloudDb st with
  | Some old =>
      match disconnect (mkSys old (env st)) with
      | (Normal _, s) =>
          (Normal (mkResult true None), mkMain None (fsLog st) (world s))
      | (Throw e, s) => (Throw e, mkMain (Some (this s)) (fsLog st) (world s))
      | (Stalled, s) => (Stalled, mkMain (Some (this s)) (fsLog st) (world s))
      end
  | None => (Normal (mkResult true None), st)
  end.

(** Every pool open and every timer set belongs to the instance that
    [cloudDb] holds. *)
Definition accounted (st : Main) : Prop :=
  match cloudDb st with
  | Some inst => tidy (mkSys inst (env st)) /\ ticking (mkSys inst (env st))
  | None => openPools (log (env st)) = [] /\ activeTimers (log (env st)) = []
  end.

(** The main process after start-up, with the cloud instance connected. *)
Definition mainConnected : Main :=
  mkMain (Some (this (connected healthy))) [] (world (connected healthy)).

(** ** The images of an export

    The helpers of the [export-notes] handler that turn the images
    embedded in the notes into files.  The regular expression that splits
    a data URL, the base64 decoder of [Buffer.from] and the outcome of
    [fs.writeFileSync] are taken as they come. *)

(** A byte of a [Buffer] as a number. *)
Definition byteZ (b : Byte.byte) : Z := Z.of_N (Byte.to_N b).

(** [buffer[i] === b]; [buffer[i]] is [undefined] past the end. *)
Definition byteIs (buffer : list Byte.byte) (i : nat) (b : Byte.byte) : bool :=
  match nth_error buffer i with
  | Some x => Byte.eqb x b
  | None => false
  end.

(** [buffer.readUInt16BE(offset)]; [None] is the [RangeError] of a read
    past the end. *)
Definition readUInt16BE (buffer : list Byte.byte) (offset : nat) : option Z :=
  match nth_error buffer offset, nth_error buffer (offset + 1) with
  | Some first, Some last => Some (byteZ first * 2 ^ 8 + byteZ last)
  | _, _ => None
  end.

(** [buffer.readUInt32BE(offset)]. *)
Definition readUInt32BE (buffer : list Byte.byte) (offset : nat) : option Z :=
  match nth_error buffer offset, nth_error buffer (offset + 1),
        nth_error buffer (offset + 2), nth_error buffer (offset + 3) with
  | Some first, Some second, Some third, Some last =>
      Some (byteZ first * 2 ^ 24 + byteZ second * 2 ^ 16 +
            byteZ third * 2 ^ 8 + byteZ last)
  | _, _, _, _ => None
  end.

(** [{ width: number; height: number }]. *)
Record Dimensions := mkDimensions {
  width : Z;
  height : Z
}.

(** [buffer[i] === 0xFF && buffer[i + 1] >= 0xC0 && buffer[i + 1] <= 0xC3]:
    a start-of-frame marker at [i]. *)
Definition isSOF (buffer : list Byte.byte) (i : nat) : bool :=
  byteIs buffer i Byte.xff &&
  match nth_error buffer (i + 1) with
  | Some x => (192 <=? byteZ x) && (byteZ x <=? 195)
  | None => false
  end.

(** [for (let i = 2; i < buffer.length - 8; i++)] of [getImageDimensions],
    with [left = buffer.length - 8 - i]; a [RangeError] is caught by the
    [try] around the body of the function, which then returns [null]. *)
Fixpoint findSOF (buffer : list Byte.byte) (left i : nat)
  : option Dimensions :=
  match left with
  | O => None
  | S left' =>
      if isSOF buffer i then
        match readUInt16BE buffer (i + 5), readUInt16BE buffer (i + 7) with
        | Some h, Some w => Some (mkDimensions w h)
        | _, _ => None
        end
      else findSOF buffer left' (S i)
  end.

(** The part of [getImageDimensions] that reads the decoded buffer. *)
Definition dimensionsOfBuffer (buffer : list Byte.byte) : option Dimensions :=
  if byteIs buffer 0 Byte.x89 && byteIs buffer 1 Byte.x50 &&
     byteIs buffer 2 Byte.x4e && byteIs buffer 3 Byte.x47 then
    match readUInt32BE buffer 16, readUInt32BE buffer 20 with
    | Some w, Some h => Some (mkDimensions w h)
    | _, _ => None
    end
  else if byteIs buffer 0 Byte.xff && byteIs buffer 1 Byte.xd8 then
    findSOF buffer (length buffer - 8 - 2) 2
  else None.

(** [`${n}`] for a counter. *)
Definition decimal (n : nat) : string :=
  DecimalString.NilEmpty.string_of_uint (Nat.to_uint n).

(** [`image_${imageCounter}.${ext}`]. *)
Definition imageFileName (counter : nat) (ext : string) : string :=
  ("image_" ++ decimal counter ++ "." ++ ext)%string.

(** The variables the closures of the handler share, and the files
    written into the [images] folder, by name. *)
Record ExportState := mkExport {
  imageCounter : nat;
  imageMap : list (string * string);
  imageDimensionsMap : list (string * Dimensions);
  written : list (string * list Byte.byte)
}.

(** [new Map()] with string keys, as far as [has], [get] and [set] show:
    the binding set last is the one that is found. *)
Definition map_get {V} (m : list (string * V)) (key : string) : option V :=
  match find (fun kv => String.eqb (fst kv) key) m with
  | Some kv => Some (snd kv)
  | None => None
  end.

Definition map_set {V} (key : string) (v : V) (m : list (string * V))
  : list (string * V) :=
  (key, v) :: m.

(** [let imageCounter = 0], two empty maps, nothing written. *)
Definition newExport : ExportState := mkExport 0 [] [] [].

Section ImageExport.

(** [base64Data.match(/^data:image\/(\w+);base64,(.+)$/)]: the image type
    and the base64 content when the expression matches. *)
Variable dataUrl : string -> option (string * string).

(** [Buffer.from(base64Content, 'base64')]. *)
Variable fromBase64 : string -> list Byte.byte.

(** Whether [fs.writeFileSync] throws for the file of that name. *)
Variable writeThrows : string -> bool.

(** [getImageDimensions]. *)
Definition getImageDimensions (base64Data : string) : option Dimensions :=
  match dataUrl base64Data with
  | Some (_, base64Content) => dimensionsOfBuffer (fromBase64 base64Content)
  | None => None
  end.

(** [saveImageToFile]: the path it returns and the state it leaves. *)
Definition saveImageToFile (base64Data : string) (st : ExportState)
  : string * ExportState :=
  match map_get (imageMap st) base64Data with
  | Some path => (path, st)
  | None =>
      match dataUrl base64Data with
      | None => (EmptyString, st)
      | Some (imageType, base64Content) =>
          let ext := if String.eqb imageType "jpeg" then "jpg" else imageType in
          let counter := S (imageCounter st) in
          let fileName := imageFileName counter ext in
          let buffer := fromBase64 base64Content in
          if writeThrows fileName then
            (EmptyString,
             mkExport counter (imageMap st) (imageDimensionsMap st) (written st))
          else
            let relativePath := ("images/" ++ fileName)%string in
            (relativePath,
             mkExport counter
               (map_set base64Data relativePath (imageMap st))
               (match getImageDimensions base64Data with
                | Some dimensions =>
                    map_set base64Data dimensions (imageDimensionsMap st)
                | None => imageDimensionsMap st
                end)
               (written st ++ [(fileName, buffer)]))
      end
  end.

(** The state after the images of a list have been saved in turn. *)
Definition savedAll (images : list string) : ExportState :=
  fold_left (fun st base64Data => snd (saveImageToFile base64Data st))
            images newExport.

End ImageExport.

(** Four bytes for a number below [2 ^ 32] and two for one below
    [2 ^ 16], most significant first: what the headers of the image
    formats hold. *)
Definition toByte (z : Z) : Byte.byte :=
  match Byte.of_N (Z.to_N z) with
  | Some b => b
  | None => Byte.x00
  end.

Definition be16 (z : Z) : list Byte.byte :=
  [toByte (z / 256); toByte (z mod 256)].

Definition be32 (z : Z) : list Byte.byte :=
  [toByte (z / 256 / 256 / 256); toByte (z / 256 / 256 mod 256);
   toByte (z / 256 mod 256); toByte (z mod 256)].

Definition pngSignature : list Byte.byte :=
  [Byte.x89; Byte.x50; Byte.x4e; Byte.x47].

Definition jpegSignature : list Byte.byte := [Byte.xff; Byte.xd8].

(** A string without a dot: the decimal numbers of the file names are such
    strings, so that a file name is split at its first dot. *)
Fixpoint no_dot (s : string) : bool :=
  match s with
  | EmptyString => true
  | String c rest => negb (Ascii.eqb c ".") && no_dot rest
  end.

(** What the closures keep true of the variables they share: every file
    written has a name [image_k.ext] with [k] a number already taken, no two
    files have the same name, every path of [imageMap] is the path of a
    written file that holds the bytes of its image, and no two images have
    the same path. *)
Definition kept (dataUrl : string -> option (string * string))
  (fromBase64 : string -> list Byte.byte) (st : ExportState) : Prop :=
  (forall name buffer, In (name, buffer) (written st) ->
     exists k ext, name = imageFileName k ext /\ (k <= imageCounter st)%nat) /\
  NoDup (map fst (written st)) /\
  (forall base64Data path, In (base64Data, path) (imageMap st) ->
     exists name imageType base64Content,
       path = ("images/" ++ name)%string /\
       dataUrl base64Data = Some (imageType, base64Content) /\
       In (name, fromBase64 base64Content) (written st)) /\
  NoDup (map snd (imageMap st)).

(** The fields of the instance after [j] sleeps of a waiting loop, when the
    loop starts with the fields [t] and its first sleep is the [n]-th: what
    the other tasks have made of them meanwhile. *)
Fixpoint polledFrom (others : nat -> CloudDatabase -> CloudDatabase)
  (n : nat) (t : CloudDatabase) (j : nat) : CloudDatabase :=
  match j with
  | O => t
  | S j' => polledFrom others (S n) (others n t) j'
  end.

Definition polled (s : Sys) (j : nat) : CloudDatabase :=
  polledFrom (others (world s)) (slept (world s)) (this s) j.

(** The error of the driver when the server has closed the connection
    under a query: the name of the condition is its [code], the [message]
    is a sentence. *)
Definition connectionLost : Thrown :=
  ThrownError (mkError "Connection lost: The server closed the connection."
                       (Some "PROTOCOL_CONNECTION_LOST")).

(** The error of a socket that could not connect in time. *)
Definition connectTimedOut : Thrown :=
  ThrownError (mkError "connect ETIMEDOUT" (Some "ETIMEDOUT")).

(** A callback that is rejected with [e] in round 0 and fulfilled with 42
    afterwards. *)
Definition failingOnce (e : Thrown) : nat -> Pool -> Promise Z :=
  fun i _ =>
    match i with
    | O => Rejected e
    | S _ => Resolved 42
    end.

(** ** Proof tools *)

(** Case analysis on the innermost scrutinee that blocks evaluation. *)
Ltac break_match :=
  match goal with
  | H : context [match ?x with _ => _ end] |- _ =>
      lazymatch x with
      | context [match _ with _ => _ end] => fail
      | _ => destruct x eqn:?
      end
  | |- context [match ?x with _ => _ end] =>
      lazymatch x with
      | context [match _ with _ => _ end] => fail
      | _ => destruct x eqn:?
      end
  end.

(** Running the straight-line part of a computation; the methods stay
    folded. *)
Ltac run :=
  cbv beta iota zeta delta
    [bind ret throw try_catch try_finally get_this set_pool set_config
     set_isReconnecting set_heartbeatInterval emit fresh ask await await_race
     settle pool_getConnection connection_query connection_release pool_end
     pool_end_detached pool_end_quietly sleep sleep_yielding createPool
     stopHeartbeat startHeartbeat closeOldPool resetPool logged
     heartbeatProbe validityProbe clearing
     this world pool config isReconnecting heartbeatInterval
     remote asked others slept handles log option_map fst snd] in *.

Ltac run_all := repeat (run; try break_match); try discriminate.

(** The same in the conclusion only. *)
Ltac run_goal :=
  cbv beta iota zeta delta
    [bind ret throw try_catch try_finally get_this set_pool set_config
     set_isReconnecting set_heartbeatInterval emit fresh ask await await_race
     settle pool_getConnection connection_query connection_release pool_end
     pool_end_detached pool_end_quietly sleep sleep_yielding createPool
     stopHeartbeat startHeartbeat closeOldPool resetPool logged
     heartbeatProbe validityProbe clearing
     this world pool config isReconnecting heartbeatInterval
     remote asked others slept handles log option_map fst snd].

Lemma invocations_app l1 l2 :
  invocations (l1 ++ l2) = (invocations l1 + invocations l2)%nat.
Proof. unfold invocations. now rewrite filter_app, length_app. Qed.

Lemma sameTarget_spec a b :
  sameTarget a b = true <->
  host a = host b /\ port a = port b /\
  database a = database b /\ user a = user b.
Proof.
  unfold sameTarget.
  rewrite !andb_true_iff, !String.eqb_eq, Z.eqb_eq. tauto.
Qed.

(** ** [connect] *)

(** What [connect] leaves behind, by the way it ends. *)
Lemma connect_inv cfg s r s' :
  connect cfg s = (r, s') ->
  isReconnecting (this s') = isReconnecting (this s) /\
  invocations (log (world s')) = invocations (log (world s)) /\
  match r with
  | Normal _ =>
      (exists p c, pool (this s') = Some p /\ config (this s') = Some c /\
                   sameTarget c cfg = true) /\
      ((pool (this s) <> None -> heartbeatInterval (this s) <> None) ->
       heartbeatInterval (this s') <> None)
  | Throw _ =>
      pool (this s') = None /\ config (this s') = Some cfg /\
      heartbeatInterval (this s') = heartbeatInterval (this s)
  | Stalled => True
  end.
Proof.
  destruct s as [[p c f h] [rm a o sl hd lg]].
  unfold connect. intros H. run_all.
  all: inversion H; subst; run.
  all: rewrite ?invocations_app; cbn [invocations filter is_call length].
  all: repeat split; try lia; try congruence; intros.
  all: try (eexists; eexists; repeat split; try reflexivity).
  all: try assumption; try congruence.
  all: try (apply sameTarget_spec; tauto).
  all: try (match goal with H : _ -> _ |- _ => apply H end; congruence).
Qed.

(** With the same target stored and a pool that hands out a connection,
    [connect] keeps everything as it is. *)
Lemma connect_reuse cfg s p c :
  pool (this s) = Some p ->
  config (this s) = Some c ->
  sameTarget c cfg = true ->
  remote (world s) (asked (world s)) = Resolved tt ->
  connect cfg s =
    (Normal tt,
     mkSys (this s)
           (mkWorld (remote (world s)) (S (asked (world s)))
                    (others (world s)) (slept (world s)) (handles (world s))
                    (log (world s) ++ [GetConnection p None; Release p]))).
Proof.
  destruct s as [[p0 c0 f h] [rm a o sl hd lg]].
  cbn [this world pool config remote asked others slept handles log].
  intros -> -> Hsame Hr.
  unfold connect. run. rewrite Hsame, Hr. run.
  now rewrite <- app_assoc.
Qed.

(** Without a pool, [connect] opens one from the configuration it is
    given and borrows a first connection from it. *)
Lemma connect_opens cfg s :
  pool (this s) = None ->
  exists tr,
    log (world (snd (connect cfg s))) =
      log (world s) ++
      CreatePool (handles (world s)) (poolOptions cfg) ::
      GetConnection (handles (world s)) None :: tr.
Proof.
  destruct s as [[p0 c0 f h] [rm a o sl hd lg]].
  cbn [this pool]. intros ->.
  unfold connect. run_all.
  all: rewrite <- ?app_assoc; cbn [app]; eexists; reflexivity.
Qed.

(** ** Consistency of the fields between calls *)

Lemma reconnectNow_inv s r s' :
  reconnectNow s = (r, s') ->
  invocations (log (world s')) = invocations (log (world s)) /\
  match r with
  | Normal p => pool (this s') = Some p /\ consistent (this s')
  | Throw _ => pool (this s') = None /\ isReconnecting (this s') = false
  | Stalled => True
  end.
Proof.
  destruct s as [[p c f h] [rm a o sl hd lg]].
  unfold reconnectNow, consistent. intros H.
  repeat (run; try break_match;
          try match goal with
              | E : connect _ _ = _ |- _ => apply connect_inv in E
              end); try discriminate.
  all: inversion H; subst; run.
  all: rewrite ?invocations_app in *; cbn [invocations filter is_call length] in *.
  all: intuition (try lia; try congruence).
  all: repeat match goal with
              | E : exists _, _ |- _ => destruct E
              | E : _ /\ _ |- _ => destruct E
              end; try congruence.
Qed.

(** ** The waiting loop *)

(** The loop always ends, after at most [left] sleeps of 100 ms, and
    before that only when the flag is down. *)
Lemma waitForReconnect_inv left s :
  exists k s',
    waitForReconnect left s = (Normal tt, s') /\
    (k <= left)%nat /\
    log (world s') = log (world s) ++ repeat (Sleep 100) k /\
    ((k < left)%nat -> isReconnecting (this s') = false) /\
    remote (world s') = remote (world s) /\
    asked (world s') = asked (world s) /\
    handles (world s') = handles (world s).
Proof.
  revert s. induction left as [|left IH]; intros s.
  - exists 0%nat, s. cbn [waitForReconnect repeat]. unfold ret.
    rewrite app_nil_r. repeat split; auto; lia.
  - cbn [waitForReconnect]. unfold bind at 1, get_this at 1.
    destruct (isReconnecting (this s)) eqn:F.
    + unfold bind, sleep_yielding. run.
      match goal with
      | |- context [waitForReconnect left ?s1] =>
          destruct (IH s1) as (k & s' & E & Hk & Hl & Hf & Hr & Ha & Hh)
      end.
      run. exists (S k), s'. rewrite E. cbn [repeat].
      repeat split; try assumption; try lia.
      * rewrite Hl. now rewrite <- app_assoc.
      * intros. apply Hf. lia.
    + exists 0%nat, s. unfold ret. cbn [repeat]. rewrite app_nil_r.
      repeat split; auto; lia.
Qed.

Lemma waitForReconnect_invocations left s r s' :
  waitForReconnect left s = (r, s') ->
  r = Normal tt /\
  invocations (log (world s')) = invocations (log (world s)).
Proof.
  intros H.
  destruct (waitForReconnect_inv left s) as (k & s1 & E & _ & Hl & _).
  rewrite E in H. inversion H; subst. split; [reflexivity|].
  rewrite Hl, invocations_app.
  assert (Z0 : forall n, invocations (repeat (Sleep 100) n) = 0%nat).
  { clear. induction n as [|n IHn]; [reflexivity|]. cbn [repeat]. exact IHn. }
  rewrite Z0. lia.
Qed.

(** ** [ensureConnectionValid] *)

(** From any state: the pool that is returned is the stored one, a
    configuration is stored with it, and the callback is not touched. *)
Lemma ensureConnectionValid_inv s r s' :
  ensureConnectionValid s = (r, s') ->
  invocations (log (world s')) = invocations (log (world s)) /\
  match r with
  | Normal p => pool (this s') = Some p /\ config (this s') <> None
  | _ => True
  end.
Proof.
  destruct s as [[p c f h] [rm a o sl hd lg]].
  unfold ensureConnectionValid. intros H.
  repeat (run; try break_match;
          try match goal with
              | E : reconnectNow _ = _ |- _ =>
                  apply reconnectNow_inv in E; unfold consistent in E
              | E : waitForReconnect _ _ = _ |- _ =>
                  apply waitForReconnect_invocations in E
              end); try discriminate.
  all: inversion H; subst; run.
  all: rewrite ?invocations_app in *; cbn [invocations filter is_call length] in *.
  all: repeat match goal with
              | E : _ /\ _ |- _ => destruct E
              end.
  all: repeat split; try lia; try congruence; try tauto.
  all: match goal with
       | E : ?x <> None -> _ /\ _ |- _ => apply E; congruence
       end.
Qed.

(** Between calls the flag is down, so the waiting loop is not entered
    and the fields stay consistent. *)
Lemma ensureConnectionValid_consistent s r s' :
  consistent (this s) ->
  ensureConnectionValid s = (r, s') ->
  r <> Stalled ->
  consistent (this s').
Proof.
  destruct s as [[p c f h] [rm a o sl hd lg]].
  unfold ensureConnectionValid, consistent.
  cbn [this pool config isReconnecting heartbeatInterval].
  intros [-> Hc] H Hr.
  repeat (run; try break_match;
          try match goal with
              | E : reconnectNow _ = _ |- _ =>
                  apply reconnectNow_inv in E; unfold consistent in E
              end); try discriminate.
  all: inversion H; subst; run; try congruence.
  all: repeat match goal with
              | E : _ /\ _ |- _ => destruct E
              end.
  all: try (split; [reflexivity|assumption]).
  all: try (split; [assumption|intros; congruence]).
  all: try (split; assumption).
Qed.

(** ** The reaction of [executeQueryWithRetry] to a connection error *)

Lemma resetPool_inv s r s' :
  resetPool s = (r, s') ->
  isReconnecting (this s') = isReconnecting (this s) /\
  config (this s') = config (this s) /\
  invocations (log (world s')) = invocations (log (world s)) /\
  match r with
  | Normal _ => pool (this s') = None
  | Throw _ => False
  | Stalled => True
  end.
Proof.
  destruct s as [[p c f h] [rm a o sl hd lg]].
  intros H. run_all.
  all: inversion H; subst; run.
  all: rewrite ?invocations_app; cbn [invocations filter is_call length].
  all: repeat split; try lia.
Qed.

Lemma backoffAndReopen_inv i retries s r s' :
  backoffAndReopen i retries s = (r, s') ->
  isReconnecting (this s') = isReconnecting (this s) /\
  invocations (log (world s')) = invocations (log (world s)) /\
  match r with
  | Normal _ =>
      pool (this s) = None ->
      pool (this s') <> None ->
      heartbeatInterval (this s') <> None /\ config (this s') <> None
  | Throw _ => False
  | Stalled => True
  end.
Proof.
  destruct s as [[p c f h] [rm a o sl hd lg]].
  unfold backoffAndReopen. intros H.
  repeat (run; try break_match;
          try match goal with
              | E : connect _ _ = _ |- _ => apply connect_inv in E
              end); try discriminate.
  all: inversion H; subst; run.
  all: rewrite ?invocations_app in *; cbn [invocations filter is_call length] in *.
  all: repeat match goal with
              | E : _ /\ _ |- _ => destruct E
              | E : exists _, _ |- _ => destruct E
              end.
  all: repeat split; try lia; try congruence; intros; try congruence.
  all: match goal with
       | E : _ -> ?x <> None |- ?x <> None => apply E; intros; congruence
       end.
Qed.

(** One round of the loop, unfolded. *)
Lemma retryLoop_S {T} (queryFn : nat -> Pool -> Promise T)
  retries left i lastError :
  retryLoop queryFn retries (S left) i lastError =
  try_catch
    (p <- ensureConnectionValid ;;
     emit (CallQueryFn i p) ;;
     await (queryFn i p))
    (fun error =>
       if isConnectionError (toError error) then
         resetPool ;;
         backoffAndReopen i retries ;;
         retryLoop queryFn retries left (S i) (Some (toError error))
       else throw (ThrownError (toError error))).
Proof. reflexivity. Qed.

(** [executeQueryWithRetry] keeps the fields consistent, and calls the
    callback at most once per round. *)
Lemma retryLoop_consistent {T} (queryFn : nat -> Pool -> Promise T)
  retries left :
  forall i lastError s r s',
    consistent (this s) ->
    retryLoop queryFn retries left i lastError s = (r, s') ->
    (r <> Stalled -> consistent (this s')) /\
    (invocations (log (world s')) <= invocations (log (world s)) + left)%nat.
Proof.
  induction left as [|left IH]; intros i lastError s r s' Hc H.
  - cbn [retryLoop] in H. unfold throw in H. inversion H; subst.
    split; [auto | lia].
  - rewrite retryLoop_S in H.
    unfold try_catch, bind in H.
    destruct (ensureConnectionValid s) as [r1 s1] eqn:E1.
    pose proof (ensureConnectionValid_consistent _ _ _ Hc E1) as C1.
    apply ensureConnectionValid_inv in E1. destruct E1 as [I1 _].
    assert (react :
      forall error s2,
        consistent (this s2) ->
        (invocations (log (world s2)) <= invocations (log (world s)) + 1)%nat ->
        (if isConnectionError (toError error)
         then
           fun s0 =>
             match resetPool s0 with
             | (Normal _, s3) =>
                 match backoffAndReopen i retries s3 with
                 | (Normal _, s4) =>
                     retryLoop queryFn retries left (S i)
                       (Some (toError error)) s4
                 | (Throw e, s4) => (Throw e, s4)
                 | (Stalled, s4) => (Stalled, s4)
                 end
             | (Throw e, s3) => (Throw e, s3)
             | (Stalled, s3) => (Stalled, s3)
             end
         else throw (ThrownError (toError error))) s2 = (r, s') ->
        (r <> Stalled -> consistent (this s')) /\
        (invocations (log (world s')) <=
         invocations (log (world s)) + S left)%nat).
    { intros error s2 C2 I2 H2.
      destruct (isConnectionError (toError error)).
      - destruct (resetPool s2) as [r3 s3] eqn:E3.
        apply resetPool_inv in E3. destruct E3 as (F3 & G3 & I3 & P3).
        destruct r3; [|contradiction|inversion H2; subst; split; [congruence|lia]].
        destruct (backoffAndReopen i retries s3) as [r4 s4] eqn:E4.
        apply backoffAndReopen_inv in E4. destruct E4 as (F4 & I4 & P4).
        destruct r4; [|contradiction|inversion H2; subst; split; [congruence|lia]].
        assert (C4 : consistent (this s4)).
        { destruct C2 as [C2f _]. split; [congruence|]. intros; auto. }
        destruct (IH _ _ _ _ _ C4 H2) as [K1 K2]. split; [exact K1|lia].
      - unfold throw in H2. inversion H2; subst. split; [auto|lia]. }
    destruct r1 as [p| e |].
    + unfold emit at 1 in H. cbn [fst snd] in H.
      match type of H with
      | context [await _ ?s2] => set (sc := s2) in *
      end.
      assert (Cc : consistent (this sc)) by (apply C1; discriminate).
      assert (Ic : invocations (log (world sc)) =
                   (invocations (log (world s1)) + 1)%nat).
      { subst sc. cbn [world log]. rewrite invocations_app. reflexivity. }
      unfold await in H. destruct (queryFn i p) as [v| e |].
      * inversion H; subst. split; [auto|lia].
      * apply (react e sc Cc); [lia|exact H].
      * inversion H; subst. split; [congruence|lia].
    + apply (react e s1); [apply C1; discriminate|lia|exact H].
    + inversion H; subst. split; [congruence|lia].
Qed.

(** ** The invariant of the reachable states *)

Lemma connect_consistent cfg s :
  consistent (this s) ->
  fst (connect cfg s) <> Stalled ->
  consistent (this (snd (connect cfg s))).
Proof.
  intros [Cf Cp] Hr.
  destruct (connect cfg s) as [r s'] eqn:E. cbn [fst snd] in *.
  apply connect_inv in E. destruct E as (F & _ & P).
  split; [congruence|].
  destruct r as [u| e |]; [| |congruence].
  - destruct P as ((p & c & Hp & Hcfg & _) & Hh). intros _. split.
    + apply Hh. intros Q. apply Cp, Q.
    + congruence.
  - destruct P as (Hp & _). congruence.
Qed.

Lemma disconnect_consistent s :
  isReconnecting (this s) = false ->
  consistent (this (snd (disconnect s))).
Proof.
  destruct s as [[p c f h] [rm a o sl hd lg]].
  cbn [this isReconnecting]. intros ->.
  unfold disconnect, consistent. run_all.
  all: split; [reflexivity|congruence].
Qed.

Lemma performHeartbeat_consistent s :
  consistent (this s) ->
  fst (performHeartbeat s) <> Stalled ->
  consistent (this (snd (performHeartbeat s))).
Proof.
  destruct s as [[p c f h] [rm a o sl hd lg]].
  unfold performHeartbeat, consistent.
  cbn [this pool config isReconnecting heartbeatInterval].
  intros [-> Hc] Hr.
  repeat (run; try break_match;
          try match goal with
              | E : connect _ _ = _ |- _ => apply connect_inv in E
              end); try discriminate.
  all: run; try congruence.
  all: repeat match goal with
              | E : _ /\ _ |- _ => destruct E
              | E : exists _, _ |- _ => destruct E
              end.
  all: try (split; [reflexivity|]; intros; try congruence).
  all: try (split; [|congruence]).
  all: try match goal with
           | E : _ -> ?x <> None |- ?x <> None => apply E; intros; congruence
           end.
  all: try (apply Hc; congruence).
  all: destruct Hc as [_ Hn]; [congruence|]; congruence.
Qed.

Theorem reachable_consistent s :
  reachable s -> consistent (this s).
Proof.
  induction 1 as [w|s cfg _ IH Hr|s _ IH|s _ IH _ Hr|T queryFn retries s _ IH Hr].
  - split; [reflexivity|]. cbn. congruence.
  - now apply connect_consistent.
  - apply disconnect_consistent. apply IH.
  - now apply performHeartbeat_consistent.
  - unfold executeQueryWithRetry in *.
    destruct (retryLoop queryFn retries (S retries) 0 None s) as [r s'] eqn:E.
    cbn [fst snd] in *.
    apply (retryLoop_consistent _ _ _ _ _ _ _ _ IH E). exact Hr.
Qed.

(** ** The log only grows *)

Section Emits.
Variable ok : Event -> bool.

Lemma emits_silent {A} (m : M A) :
  (forall s, log (world (snd (m s))) = log (world s)) -> emits ok m.
Proof.
  intros H s. exists []. rewrite app_nil_r. split; [apply H|reflexivity].
Qed.

Lemma emits_emit e : ok e = true -> emits ok (emit e).
Proof.
  intros H s. exists [e]. split; [reflexivity|]. cbn. now rewrite H.
Qed.

Lemma emits_then (s s1 s2 : Sys) :
  (exists tr, log (world s1) = log (world s) ++ tr /\ forallb ok tr = true) ->
  (exists tr, log (world s2) = log (world s1) ++ tr /\ forallb ok tr = true) ->
  exists tr, log (world s2) = log (world s) ++ tr /\ forallb ok tr = true.
Proof.
  intros (t1 & E1 & O1) (t2 & E2 & O2). exists (t1 ++ t2). split.
  - now rewrite E2, E1, app_assoc.
  - now rewrite forallb_app, O1, O2.
Qed.

Lemma emits_bind {A B} (m : M A) (k : A -> M B) :
  emits ok m -> (forall a, emits ok (k a)) -> emits ok (bind m k).
Proof.
  intros Hm Hk s. unfold bind.
  specialize (Hm s). destruct (m s) as [[a| e |] s1]; cbn [snd] in *;
    try exact Hm.
  apply (emits_then s s1); [exact Hm|apply Hk].
Qed.

Lemma emits_try_catch {A} (m : M A) (h : Thrown -> M A) :
  emits ok m -> (forall e, emits ok (h e)) -> emits ok (try_catch m h).
Proof.
  intros Hm Hh s. unfold try_catch.
  specialize (Hm s). destruct (m s) as [[a| e |] s1]; cbn [snd] in *;
    try exact Hm.
  apply (emits_then s s1); [exact Hm|apply Hh].
Qed.

Lemma emits_try_finally {A} (m : M A) (f : M unit) :
  emits ok m -> emits ok f -> emits ok (try_finally m f).
Proof.
  intros Hm Hf s. unfold try_finally.
  specialize (Hm s). destruct (m s) as [[a| e |] s1]; cbn [snd] in *;
    try exact Hm.
  all: specialize (Hf s1); destruct (f s1) as [[u| e' |] s2]; cbn [snd] in *.
  all: apply (emits_then s s1); assumption.
Qed.
End Emits.

(** Breaking a computation down to its events. *)
Ltac emits_steps :=
  repeat first
    [ apply emits_bind
    | apply emits_try_catch
    | apply emits_try_finally
    | apply emits_emit; reflexivity
    | apply emits_silent; intros; reflexivity
    | apply emits_silent; intros [? ?]; reflexivity
    | match goal with
      | |- forall _, _ => intro
      | |- emits _ (match ?x with _ => _ end) => destruct x
      | |- emits _ (await ?x) => destruct x
      | |- emits _ (await_race ?x _) => destruct x
      end ].

Lemma emits_connect cfg : emits any_event (connect cfg).
Proof.
  unfold connect, closeOldPool, startHeartbeat, stopHeartbeat, createPool,
    pool_end_quietly, pool_end, pool_getConnection, connection_release, settle.
  emits_steps.
Qed.

Lemma emits_waitForReconnect left : emits any_event (waitForReconnect left).
Proof.
  induction left as [|left IH]; cbn [waitForReconnect].
  - emits_steps.
  - unfold sleep_yielding. emits_steps. exact IH.
Qed.

Lemma emits_ensureConnectionValid : emits any_event ensureConnectionValid.
Proof.
  unfold ensureConnectionValid, reconnectNow, validityProbe, closeOldPool,
    stopHeartbeat, pool_end_quietly, pool_end, pool_getConnection,
    connection_query, connection_release, settle.
  emits_steps.
  all: first [apply emits_connect | apply emits_waitForReconnect].
Qed.

Lemma emits_retryLoop {T} (queryFn : nat -> Pool -> Promise T) retries left :
  forall i lastError, emits any_event (retryLoop queryFn retries left i lastError).
Proof.
  induction left as [|left IH]; intros i lastError.
  - cbn [retryLoop]. unfold throw. emits_steps.
  - rewrite retryLoop_S.
    unfold resetPool, backoffAndReopen, stopHeartbeat, pool_end, settle, sleep.
    emits_steps.
    all: first [ apply emits_ensureConnectionValid
               | apply emits_connect
               | apply IH
               | unfold throw; emits_steps ].
Qed.

(** ** Reusing the pool (C6) *)

(** C6.  After a successful [connect(cfgA)], a [connect(cfgB)] with the
    same host, port, database and user, whatever its password, on a pool
    that hands out a connection, returns with the fields as they were:
    the same pool, no new handle, and in the log nothing but the
    connection that was borrowed and given back. *)
Theorem connect_same_target_reuses_pool cfgA cfgB s s1 :
  connect cfgA s = (Normal tt, s1) ->
  host cfgA = host cfgB ->
  port cfgA = port cfgB ->
  database cfgA = database cfgB ->
  user cfgA = user cfgB ->
  remote (world s1) (asked (world s1)) = Resolved tt ->
  exists p,
    pool (this s1) = Some p /\
    connect cfgB s1 =
      (Normal tt,
       mkSys (this s1)
             (mkWorld (remote (world s1)) (S (asked (world s1)))
                      (others (world s1)) (slept (world s1))
                      (handles (world s1))
                      (log (world s1) ++ [GetConnection p None; Release p]))).
Proof.
  intros H Hh Hp Hd Hu Hr.
  apply connect_inv in H.
  destruct H as (_ & _ & (p & c & Ep & Ec & Es) & _).
  exists p. split; [exact Ep|].
  apply connect_reuse with (c := c); try assumption.
  apply sameTarget_spec in Es. apply sameTarget_spec.
  destruct Es as (E1 & E2 & E3 & E4).
  repeat split; congruence.
Qed.

Lemma connect_same_target_reuses_pool_witness :
  exists p,
    pool (this (connected healthy)) = Some p /\
    connect rotatedConfig (connected healthy) =
      (Normal tt,
       mkSys (this (connected healthy))
             (mkWorld (remote (world (connected healthy)))
                      (S (asked (world (connected healthy))))
                      (others (world (connected healthy)))
                      (slept (world (connected healthy)))
                      (handles (world (connected healthy)))
                      (log (world (connected healthy)) ++
                       [GetConnection p None; Release p]))).
Proof.
  apply (connect_same_target_reuses_pool exampleConfig rotatedConfig
           (startWith healthy) (connected healthy));
    vm_compute; reflexivity.
Defined.

(** ** A failed [connect] (C10) *)

Lemma ensureConnectionValid_no_pool s :
  pool (this s) = None ->
  ensureConnectionValid s = (Throw notConnected, s).
Proof.
  destruct s as [[p c f h] w]. cbn [this pool]. intros ->. reflexivity.
Qed.

Lemma resetPool_no_pool s :
  pool (this s) = None -> resetPool s = (Normal tt, s).
Proof.
  destruct s as [[p c f h] w]. cbn [this pool]. intros ->. reflexivity.
Qed.

Lemma notConnected_isConnectionError :
  isConnectionError (toError notConnected) = true.
Proof. vm_compute. reflexivity. Qed.

(** C10.  When [connect(cfg)] throws, the pool is null and the stored
    configuration is [cfg], whatever was stored before; the next
    [executeQueryWithRetry] then backs off and opens its pool from [cfg]. *)
Theorem failed_connect_keeps_attempted_config cfg s e s' :
  connect cfg s = (Throw e, s') ->
  pool (this s') = None /\
  config (this s') = Some cfg /\
  forall T (queryFn : nat -> Pool -> Promise T),
  exists tr,
    log (world (snd (execute queryFn s'))) =
      log (world s') ++
      Sleep 500 :: CreatePool (handles (world s')) (poolOptions cfg) :: tr.
Proof.
  intros H. apply connect_inv in H. destruct H as (_ & _ & Hp & Hc & _).
  split; [exact Hp|]. split; [exact Hc|].
  intros T queryFn. unfold execute, executeQueryWithRetry.
  rewrite retryLoop_S. unfold try_catch, bind at 1.
  rewrite (ensureConnectionValid_no_pool _ Hp).
  rewrite notConnected_isConnectionError.
  unfold bind at 1. rewrite (resetPool_no_pool _ Hp).
  unfold bind at 1, backoffAndReopen, bind at 1, get_this at 1.
  rewrite Hc. cbn [Nat.ltb Nat.leb].
  unfold bind at 1, sleep, emit at 1, try_catch.
  match goal with
  | |- context [connect cfg ?s1] =>
      destruct (connect_opens cfg s1 Hp) as (tr1 & L1);
      destruct (connect cfg s1) as [r2 s2] eqn:E2
  end.
  cbn [snd world log handles] in L1.
  assert (L2 : log (world s2) =
               log (world s') ++
               Sleep 500 :: CreatePool (handles (world s')) (poolOptions cfg) ::
               GetConnection (handles (world s')) None :: tr1).
  { rewrite L1. now rewrite <- app_assoc. }
  assert (K : forall s3,
             (exists tr, log (world s3) = log (world s2) ++ tr /\
                         forallb any_event tr = true) ->
             exists tr,
               log (world s3) =
                 log (world s') ++
                 Sleep 500 ::
                 CreatePool (handles (world s')) (poolOptions cfg) :: tr).
  { intros s3 (tr & E & _). rewrite E, L2, <- app_assoc. cbn [app].
    eexists. reflexivity. }
  destruct r2 as [u| e2 |]; unfold ret.
  - apply K. apply emits_retryLoop.
  - apply K. apply emits_retryLoop.
  - cbn [snd]. apply K. exists []. now rewrite app_nil_r.
Qed.

Lemma failed_connect_keeps_attempted_config_witness :
  pool (this failedSwitch) = None /\
  config (this failedSwitch) = Some otherConfig /\
  forall T (queryFn : nat -> Pool -> Promise T),
  exists tr,
    log (world (snd (execute queryFn failedSwitch))) =
      log (world failedSwitch) ++
      Sleep 500 ::
      CreatePool (handles (world failedSwitch)) (poolOptions otherConfig) :: tr.
Proof.
  refine (failed_connect_keeps_attempted_config otherConfig
            (connected (failingAt 1 connectionReset)) connectionReset
            failedSwitch _).
  vm_compute. reflexivity.
Defined.

(** ** Without a configuration (C4) *)

Lemma backoffAndReopen_no_config i retries s :
  config (this s) = None -> backoffAndReopen i retries s = (Normal tt, s).
Proof.
  destruct s as [[p c f h] w]. cbn [this config]. intros ->.
  unfold backoffAndReopen, bind, get_this. cbn [this config].
  now destruct (Nat.ltb i retries).
Qed.

Lemma retryLoop_not_connected {T} (queryFn : nat -> Pool -> Promise T)
  retries s :
  pool (this s) = None ->
  config (this s) = None ->
  forall left i lastError,
    retryLoop queryFn retries (S left) i lastError s = (Throw notConnected, s).
Proof.
  intros Hp Hc. induction left as [|left IH]; intros i lastError.
  all: rewrite retryLoop_S; unfold try_catch, bind at 1.
  all: rewrite (ensureConnectionValid_no_pool _ Hp).
  all: rewrite notConnected_isConnectionError.
  all: unfold bind at 1; rewrite (resetPool_no_pool _ Hp).
  all: unfold bind at 1; rewrite (backoffAndReopen_no_config _ _ _ Hc).
  - reflexivity.
  - apply IH.
Qed.

(** C4.  With no configuration stored, on a fresh instance or after
    [disconnect], [executeQueryWithRetry] throws the "not connected"
    error and leaves the system exactly as it was: nothing is appended to
    the log, so no pool is opened, no connection or query is asked of the
    driver, and the callback is not called. *)
Theorem execute_without_config_fails_fast
  T (queryFn : nat -> Pool -> Promise T) retries s :
  reachable s ->
  config (this s) = None ->
  executeQueryWithRetry queryFn retries s = (Throw notConnected, s).
Proof.
  intros R Hc.
  destruct (reachable_consistent s R) as [_ Hp].
  assert (Hn : pool (this s) = None).
  { destruct (pool (this s)) eqn:E; [|reflexivity].
    destruct Hp as [_ Hp]; [discriminate|]. contradiction. }
  unfold executeQueryWithRetry. now apply retryLoop_not_connected.
Qed.

Lemma execute_without_config_fails_fast_witness :
  executeQueryWithRetry (fun _ _ => Resolved 5) 1
    (snd (disconnect (connected healthy))) =
  (Throw notConnected, snd (disconnect (connected healthy))).
Proof.
  apply execute_without_config_fails_fast.
  - apply reach_disconnect. apply reach_connect.
    + apply reach_new.
    + vm_compute. discriminate.
  - vm_compute. reflexivity.
Defined.

(** ** Errors of the query itself (C2) *)

(** C2.  When the first call of the callback is rejected with something
    whose message does not pass the test on connection errors, the call
    throws it at once: the [Error] object itself, or [new Error(String(v))]
    for a value [v] that is no [Error].  The callback has been called
    once, and after the validation that preceded it nothing but that call
    happened: the fields, and so the pool, are as the validation left
    them. *)
Theorem logic_error_is_rethrown_without_retry
  T (queryFn : nat -> Pool -> Promise T) retries s p s1 e :
  ensureConnectionValid s = (Normal p, s1) ->
  queryFn 0%nat p = Rejected e ->
  isConnectionError (toError e) = false ->
  executeQueryWithRetry queryFn retries s =
    (Throw (ThrownError (toError e)), logged (CallQueryFn 0 p) s1) /\
  (forall err, e = ThrownError err ->
               fst (executeQueryWithRetry queryFn retries s) = Throw e) /\
  this (logged (CallQueryFn 0 p) s1) = this s1 /\
  log (world (logged (CallQueryFn 0 p) s1)) =
    log (world s1) ++ [CallQueryFn 0 p] /\
  invocations (log (world (logged (CallQueryFn 0 p) s1))) =
    S (invocations (log (world s))).
Proof.
  intros Hv Hq Hl.
  assert (E : executeQueryWithRetry queryFn retries s =
              (Throw (ThrownError (toError e)), logged (CallQueryFn 0 p) s1)).
  { unfold executeQueryWithRetry. rewrite retryLoop_S.
    unfold try_catch, bind at 1. rewrite Hv.
    unfold bind, emit, await. rewrite Hq, Hl. reflexivity. }
  split; [exact E|]. split; [|split; [reflexivity|split; [reflexivity|]]].
  - intros err ->. rewrite E. reflexivity.
  - apply ensureConnectionValid_inv in Hv. destruct Hv as [Hi _].
    unfold logged, emit. cbn [snd world log].
    rewrite invocations_app, Hi. cbn. lia.
Qed.

Lemma logic_error_is_rethrown_without_retry_witness :
  fst (executeQueryWithRetry (fun _ _ => @Rejected Z duplicateEntry) 1
         (connected healthy)) = Throw duplicateEntry.
Proof.
  refine (proj1 (proj2
    (logic_error_is_rethrown_without_retry Z
       (fun _ _ => Rejected duplicateEntry) 1 (connected healthy) 0%nat
       (snd (ensureConnectionValid (connected healthy))) duplicateEntry
       _ _ _)) _ _).
  - vm_compute. reflexivity.
  - reflexivity.
  - vm_compute. reflexivity.
  - reflexivity.
Defined.

(** ** Errors of the connection (C1) *)

Lemma bind_bind_run {A B C} (m : M A) (n : M B) (k : M C) s u s' :
  (m ;; n) s = (Normal u, s') ->
  (m ;; n ;; k) s = k s'.
Proof.
  unfold bind. destruct (m s) as [[a| e |] s1]; try discriminate.
  destruct (n s1) as [[b| e |] s2]; try discriminate.
  intros H. inversion H; subst. reflexivity.
Qed.

(** What the reaction to a connection error does to a live pool: the
    heartbeat is stopped, the pool is ended, and after half a second a
    pool is opened from the stored configuration. *)
Lemma reaction_log s p c u s' :
  pool (this s) = Some p ->
  config (this s) = Some c ->
  (resetPool ;; backoffAndReopen 0 1) s = (Normal u, s') ->
  exists tr,
    log (world s') =
      log (world s) ++ clearing (this s) ++
      [EndPool p; Sleep 500;
       CreatePool (handles (world s)) (poolOptions c);
       GetConnection (handles (world s)) None] ++ tr.
Proof.
  destruct s as [[p0 c0 f h] [rm a o sl hd lg]].
  cbn [this world pool config]. intros -> -> H.
  unfold backoffAndReopen in H. cbn [Nat.ltb Nat.leb] in H.
  repeat (run; try break_match); try discriminate.
  all: match goal with
       | E : connect ?c1 ?s1 = _ |- _ =>
           let L := fresh "L" in
           destruct (connect_opens c1 s1 eq_refl) as (tr & L);
           rewrite E in L
       end.
  all: inversion H; subst; run.
  all: exists tr; rewrite L; rewrite <- ?app_assoc; reflexivity.
Qed.

(** X18.  When the first call of the callback is rejected with an error
    that passes the test on connection errors (as [read ECONNRESET] does), [executeQueryWithRetry]
    with its default [retries = 1] stops the heartbeat and ends the pool,
    sleeps 500 ms and opens a pool from the stored configuration, in that
    order.  When the validation that follows returns a pool, the callback
    is called a second time, and when that call is fulfilled its value is
    the result: the callback has then been called exactly twice. *)
Theorem connection_error_is_retried_once
  T (queryFn : nat -> Pool -> Promise T) s p s1 e s3 p' s4 v :
  ensureConnectionValid s = (Normal p, s1) ->
  queryFn 0%nat p = Rejected e ->
  isConnectionError (toError e) = true ->
  (resetPool ;; backoffAndReopen 0 1) (logged (CallQueryFn 0 p) s1) =
    (Normal tt, s3) ->
  ensureConnectionValid s3 = (Normal p', s4) ->
  queryFn 1%nat p' = Resolved v ->
  execute queryFn s = (Normal v, logged (CallQueryFn 1 p') s4) /\
  invocations (log (world (logged (CallQueryFn 1 p') s4))) =
    (invocations (log (world s)) + 2)%nat /\
  exists c tr,
    config (this s1) = Some c /\
    log (world s3) =
      log (world s1) ++ [CallQueryFn 0 p] ++ clearing (this s1) ++
      [EndPool p; Sleep 500;
       CreatePool (handles (world s1)) (poolOptions c);
       GetConnection (handles (world s1)) None] ++ tr.
Proof.
  intros H1 Hq0 Hc H3 H5 Hq1.
  split; [|split].
  - unfold execute, executeQueryWithRetry. rewrite retryLoop_S.
    unfold try_catch at 1, bind at 1. rewrite H1.
    unfold bind at 1, emit at 1. unfold await at 1. rewrite Hq0, Hc.
    change (mkSys (this s1)
              (mkWorld (remote (world s1)) (asked (world s1))
                 (others (world s1)) (slept (world s1)) (handles (world s1))
                 (log (world s1) ++ [CallQueryFn 0 p])))
      with (logged (CallQueryFn 0 p) s1).
    rewrite (bind_bind_run _ _ _ _ _ _ H3).
    rewrite retryLoop_S. unfold try_catch, bind at 1. rewrite H5.
    unfold bind, emit, await. rewrite Hq1. reflexivity.
  - pose proof (ensureConnectionValid_inv _ _ _ H1) as [I1 _].
    pose proof (ensureConnectionValid_inv _ _ _ H5) as [I5 _].
    assert (I3 : invocations (log (world s3)) =
                 invocations (log (world (logged (CallQueryFn 0 p) s1)))).
    { unfold bind in H3.
      destruct (resetPool (logged (CallQueryFn 0 p) s1)) as [r2 s2] eqn:E2.
      apply resetPool_inv in E2. destruct E2 as (_ & _ & I2 & _).
      destruct r2; try discriminate.
      apply backoffAndReopen_inv in H3. destruct H3 as (_ & I3 & _).
      congruence. }
    unfold logged, emit in *. cbn [snd world log] in *.
    rewrite invocations_app in *. cbn [invocations filter is_call length] in *.
    lia.
  - pose proof (ensureConnectionValid_inv _ _ _ H1) as [_ [Hp Hcfg]].
    destruct (config (this s1)) as [c|] eqn:Ec; [|congruence].
    destruct (reaction_log (logged (CallQueryFn 0 p) s1) p c tt s3)
      as (tr & L); try assumption.
    exists c, tr. split; [reflexivity|].
    rewrite L. unfold logged, emit. cbn [snd this world log handles].
    now rewrite <- app_assoc.
Qed.

Lemma connection_error_is_retried_once_witness :
  fst (execute flakyQuery (connected healthy)) = Normal 42 /\
  invocations (log (world (snd (execute flakyQuery (connected healthy))))) =
    2%nat.
Proof.
  pose (s1 := snd (ensureConnectionValid (connected healthy))).
  pose (s3 := snd ((resetPool ;; backoffAndReopen 0 1)
                     (logged (CallQueryFn 0 0%nat) s1))).
  pose (s4 := snd (ensureConnectionValid s3)).
  destruct (connection_error_is_retried_once Z flakyQuery
              (connected healthy) 0%nat s1 connectionReset s3 2%nat s4 42)
    as (E & I & _).
  - vm_compute. reflexivity.
  - reflexivity.
  - vm_compute. reflexivity.
  - vm_compute. reflexivity.
  - vm_compute. reflexivity.
  - reflexivity.
  - rewrite E. split; [reflexivity|]. cbn [snd]. rewrite I. reflexivity.
Defined.

(** C1.  The test on connection errors reads the [message] of the error
    only.  The error of the driver for a lost connection carries
    [PROTOCOL_CONNECTION_LOST] as its [code] and a sentence as its
    [message], and the error of a connection that timed out reads
    [connect ETIMEDOUT]: neither passes the test, although the test looks
    for [PROTOCOL_CONNECTION_LOST] and [timeout].  On a connected instance
    whose probe goes well, a callback that is rejected with one of them in
    round 0 and would be fulfilled in round 1 is called once: the error is
    thrown again at once, the pool is kept as it is, nothing is ended,
    slept or reopened.  With a connection reset in its place the very same
    call returns the value of round 1. *)
Theorem connection_loss_is_rethrown_without_retry :
  let s := connected healthy in
  let after e := snd (execute (failingOnce e) s) in
  let probe :=
    [GetConnection 0 (Some 2000); Query 0 "SELECT 1" (Some 3000); Release 0] in
  (isConnectionError (toError connectionLost) = false /\
   fst (execute (failingOnce connectionLost) s) = Throw connectionLost /\
   this (after connectionLost) = this s /\
   log (world (after connectionLost)) =
     log (world s) ++ probe ++ [CallQueryFn 0 0]) /\
  (isConnectionError (toError connectTimedOut) = false /\
   fst (execute (failingOnce connectTimedOut) s) = Throw connectTimedOut /\
   this (after connectTimedOut) = this s /\
   log (world (after connectTimedOut)) =
     log (world s) ++ probe ++ [CallQueryFn 0 0]) /\
  (isConnectionError (toError connectionReset) = true /\
   fst (execute (failingOnce connectionReset) s) = Normal 42 /\
   invocations (log (world (after connectionReset))) = 2%nat).
Proof.
  vm_compute. repeat split; reflexivity.
Qed.

(** ** Switching to another target (C3) *)

(** C3.  [connect(exampleConfig)] followed by [connect(otherConfig)], both
    going well: the second call creates pool 2 without ending pool 0, which
    stays open next to it with no field referring to it any more. *)
Theorem connect_other_target_leaves_old_pool_open :
  fst (connect otherConfig (connected healthy)) = Normal tt /\
  pool (this (connected healthy)) = Some 0%nat /\
  pool (this (snd (connect otherConfig (connected healthy)))) = Some 2%nat /\
  openPools (log (world (snd (connect otherConfig (connected healthy))))) =
    [0%nat; 2%nat] /\
  ~ In (EndPool 0)
       (log (world (snd (connect otherConfig (connected healthy))))).
Proof.
  repeat split; try (vm_compute; reflexivity).
  vm_compute. intros H.
  repeat (destruct H as [H|H]; [discriminate|]). exact H.
Qed.

(** ** Pool and heartbeat (C7) *)

Lemma failedSwitch_reachable : reachable failedSwitch.
Proof.
  unfold failedSwitch, connected.
  apply reach_connect; [apply reach_connect; [apply reach_new|]|];
    vm_compute; discriminate.
Qed.

(** C7, as stated, fails: after a [connect] that went well and a
    [connect] to another target that threw, the pool is null and the
    timer of the first pool is still set. *)
Lemma heartbeat_outlives_pool_of_failed_connect :
  ~ (forall s, reachable s ->
               (heartbeatInterval (this s) <> None <-> pool (this s) <> None)).
Proof.
  intros H. specialize (H failedSwitch failedSwitch_reachable).
  destruct H as [H _]. apply H; vm_compute; [discriminate|reflexivity].
Qed.

Lemma connect_opens_with_heartbeat cfg s u s' :
  pool (this s) = None ->
  connect cfg s = (Normal u, s') ->
  pool (this s') = Some (handles (world s)) /\
  heartbeatInterval (this s') = Some (S (handles (world s))) /\
  log (world s') =
    log (world s) ++
    [CreatePool (handles (world s)) (poolOptions cfg);
     GetConnection (handles (world s)) None;
     Release (handles (world s))] ++
    clearing (this s) ++
    [SetInterval (S (handles (world s))) HEARTBEAT_INTERVAL].
Proof.
  destruct s as [[p c f h] [rm a o sl hd lg]].
  cbn [this pool]. intros -> H. unfold connect in H. run_all.
  all: inversion H; subst; run; rewrite <- ?app_assoc; auto.
Qed.

Lemma resetPool_log s p :
  pool (this s) = Some p ->
  log (world (snd (resetPool s))) =
    log (world s) ++ clearing (this s) ++ [EndPool p] /\
  (fst (resetPool s) <> Stalled ->
   pool (this (snd (resetPool s))) = None /\
   heartbeatInterval (this (snd (resetPool s))) = None).
Proof.
  destruct s as [[p0 c f h] [rm a o sl hd lg]].
  cbn [this pool]. intros ->. run_all.
  all: rewrite <- ?app_assoc; split; [reflexivity|]; intros; auto.
  all: congruence.
Qed.

(** C7, amended.  Between calls a pool never goes without a heartbeat
    timer.  A [connect] that opens a pool and returns sets exactly one
    timer, after the pool has served its first connection.  [disconnect]
    and the reset of [executeQueryWithRetry] clear the timer before they
    end the pool, and leave both null.  A tick that finds the pool null
    clears the timer and does nothing else. *)
Theorem live_pool_has_heartbeat s :
  reachable s ->
  (pool (this s) <> None -> heartbeatInterval (this s) <> None) /\
  (forall cfg s',
     pool (this s) = None ->
     connect cfg s = (Normal tt, s') ->
     pool (this s') = Some (handles (world s)) /\
     heartbeatInterval (this s') = Some (S (handles (world s))) /\
     log (world s') =
       log (world s) ++
       [CreatePool (handles (world s)) (poolOptions cfg);
        GetConnection (handles (world s)) None;
        Release (handles (world s))] ++
       clearing (this s) ++
       [SetInterval (S (handles (world s))) HEARTBEAT_INTERVAL]) /\
  (pool (this (snd (disconnect s))) = None /\
   heartbeatInterval (this (snd (disconnect s))) = None /\
   log (world (snd (disconnect s))) =
     log (world s) ++ clearing (this s) ++
     match pool (this s) with
     | Some p => [EndPool p]
     | None => []
     end) /\
  (forall p,
     pool (this s) = Some p ->
     log (world (snd (resetPool s))) =
       log (world s) ++ clearing (this s) ++ [EndPool p] /\
     (fst (resetPool s) <> Stalled ->
      pool (this (snd (resetPool s))) = None /\
      heartbeatInterval (this (snd (resetPool s))) = None)) /\
  (pool (this s) = None ->
   fst (performHeartbeat s) = Normal tt /\
   heartbeatInterval (this (snd (performHeartbeat s))) = None /\
   log (world (snd (performHeartbeat s))) = log (world s) ++ clearing (this s)).
Proof.
  intros R. split; [|split; [|split; [|split]]].
  - intros Hp. now apply (reachable_consistent s R).
  - intros cfg s' Hp H. now apply connect_opens_with_heartbeat with (u := tt).
  - destruct s as [[p c f h] [rm a o sl hd lg]].
    unfold disconnect. destruct p, h; run;
      rewrite <- ?app_assoc, ?app_nil_r; auto.
  - intros p Hp. now apply resetPool_log.
  - destruct s as [[p c f h] [rm a o sl hd lg]].
    cbn [this pool]. intros ->.
    unfold performHeartbeat. destruct h; run;
      rewrite <- ?app_assoc, ?app_nil_r; auto.
Qed.

Lemma live_pool_has_heartbeat_witness :
  heartbeatInterval (this failedSwitch) = Some 1%nat /\
  heartbeatInterval (this (snd (performHeartbeat failedSwitch))) = None.
Proof.
  split; [vm_compute; reflexivity|].
  apply (live_pool_has_heartbeat failedSwitch failedSwitch_reachable).
  vm_compute. reflexivity.
Defined.

(** ** The heartbeat (C8) *)


Lemma heartbeatProbe_inv p s r s' :
  heartbeatProbe p s = (r, s') ->
  this s' = this s /\
  handles (world s') = handles (world s) /\
  exists tr,
    log (world s') = log (world s) ++ GetConnection p (Some 5000) :: tr.
Proof.
  destruct s as [t [rm a o sl hd lg]]. intros H. run_all.
  all: inversion H; subst; run; repeat split.
  all: rewrite <- ?app_assoc; eexists; reflexivity.
Qed.




(** ** Deadlines (C9) *)

Lemma connected_healthy_reachable : reachable (connected healthy).
Proof.
  unfold connected. apply reach_connect; [apply reach_new|].
  vm_compute. discriminate.
Qed.

(** C9, as stated, fails: the promise of the callback is awaited bare, so
    a callback that never settles stalls the call. *)
Lemma unsettled_query_stalls_execute :
  ~ (forall T (queryFn : nat -> Pool -> Promise T) s,
       reachable s -> fst (execute queryFn s) <> Stalled).
Proof.
  intros H.
  apply (H Z (fun _ _ => Unsettled) (connected healthy)
           connected_healthy_reachable).
  vm_compute. reflexivity.
Qed.

Lemma validityProbe_inv p s r s' :
  validityProbe p s = (r, s') ->
  r <> Stalled /\
  this s' = this s /\
  handles (world s') = handles (world s) /\
  exists tr,
    log (world s') = log (world s) ++ GetConnection p (Some 2000) :: tr /\
    (tr = [] \/
     tr = [Query p "SELECT 1" (Some 3000)] \/
     tr = [Query p "SELECT 1" (Some 3000); Release p]).
Proof.
  destruct s as [t [rm a o sl hd lg]]. intros H. run_all.
  all: inversion H; subst; run; repeat split; try discriminate.
  all: rewrite <- ?app_assoc; eexists; split; [reflexivity|]; cbn [app]; auto.
Qed.

(** C9, amended.  The probe of [ensureConnectionValid] never stalls: the
    connection is awaited against a timer of 2 seconds and [SELECT 1]
    against a timer of 3 seconds.  The waiting loop ends after at most 20
    sleeps of 100 ms.  Pools are created with a connect timeout of 10
    seconds.  The promise of the callback is awaited without a timer: when
    it never settles, the call never returns. *)
Theorem probe_and_wait_are_bounded :
  (forall p s,
     fst (validityProbe p s) <> Stalled /\
     exists tr,
       log (world (snd (validityProbe p s))) =
         log (world s) ++ GetConnection p (Some 2000) :: tr /\
       (tr = [] \/
        tr = [Query p "SELECT 1" (Some 3000)] \/
        tr = [Query p "SELECT 1" (Some 3000); Release p])) /\
  (forall s, exists k s',
     waitForReconnect 20 s = (Normal tt, s') /\
     (k <= 20)%nat /\
     log (world s') = log (world s) ++ repeat (Sleep 100) k) /\
  (forall cfg, connectTimeout (poolOptions cfg) = 10000) /\
  (forall T (queryFn : nat -> Pool -> Promise T) s p s1,
     ensureConnectionValid s = (Normal p, s1) ->
     queryFn 0%nat p = Unsettled ->
     fst (execute queryFn s) = Stalled).
Proof.
  split; [|split; [|split]].
  - intros p s. destruct (validityProbe p s) as [r s'] eqn:E.
    apply validityProbe_inv in E. destruct E as (Hr & _ & _ & He).
    split; assumption.
  - intros s. destruct (waitForReconnect_inv 20 s) as (k & s' & E & Hk & Hl & _).
    exists k, s'. auto.
  - reflexivity.
  - intros T queryFn s p s1 Hv Hq.
    unfold execute, executeQueryWithRetry. rewrite retryLoop_S.
    unfold try_catch, bind at 1. rewrite Hv.
    unfold bind, emit, await. rewrite Hq. reflexivity.
Qed.

(** ** Waiting for another reconnection (C5) *)

(** The loop stops at the first poll that finds the flag down, and at the
    twentieth sleep at the latest. *)
Lemma waitForReconnect_polls left s :
  exists k s',
    waitForReconnect left s = (Normal tt, s') /\
    (k <= left)%nat /\
    log (world s') = log (world s) ++ repeat (Sleep 100) k /\
    (forall j, (j < k)%nat -> isReconnecting (polled s j) = true) /\
    this s' = polled s k /\
    slept (world s') = (slept (world s) + k)%nat /\
    ((k < left)%nat -> isReconnecting (this s') = false).
Proof.
  revert s. induction left as [|left IH]; intros [t [rm a o sl hd lg]].
  - exists 0%nat. eexists. cbn [waitForReconnect repeat]. unfold ret.
    rewrite app_nil_r. repeat split; auto; lia.
  - destruct (isReconnecting t) eqn:F.
    + destruct (IH (mkSys (o sl t)
                      (mkWorld rm a o (S sl) hd (lg ++ [Sleep 100]))))
        as (k & s' & E & Hk & Hl & Hu & Ht & Hs & Hf).
      cbn [this world log slept] in Hl, Hs.
      exists (S k), s'.
      split.
      { cbn [waitForReconnect]. unfold bind, get_this, sleep_yielding, emit.
        cbn [this world isReconnecting remote asked others slept handles log].
        rewrite F. exact E. }
      split; [lia|].
      split; [rewrite Hl; cbn [this world log repeat]; now rewrite <- app_assoc|].
      split; [intros [|j] Hj; [exact F|apply (Hu j); lia]|].
      split; [exact Ht|].
      split; [rewrite Hs; cbn [world slept]; lia|].
      intros; apply Hf; lia.
    + exists 0%nat. eexists.
      split.
      { cbn [waitForReconnect]. unfold bind, get_this, ret.
        cbn [this isReconnecting]. rewrite F. reflexivity. }
      cbn [repeat]. rewrite app_nil_r.
      repeat split; auto; lia.
Qed.

(** C5, as stated, fails: [waitingCaller] polls once, finds no pool, and
    then reconnects on its own and returns the pool it opened. *)
Lemma waiting_caller_reconnects_on_its_own :
  ~ (forall s p c e s1 s2,
       pool (this s) = Some p ->
       config (this s) = Some c ->
       isReconnecting (this s) = true ->
       validityProbe p s = (Throw e, s1) ->
       waitForReconnect 20 s1 = (Normal tt, s2) ->
       pool (this s2) = None ->
       (exists err, fst (ensureConnectionValid s) = Throw err) /\
       forallb (fun ev => negb (is_createPool ev))
               (log (world (snd (ensureConnectionValid s)))) = true).
Proof.
  intros H.
  destruct (H waitingCaller 0%nat exampleConfig connectionReset
              (snd (validityProbe 0 waitingCaller))
              (snd (waitForReconnect 20 (snd (validityProbe 0 waitingCaller)))))
    as [[err E] _]; try (vm_compute; reflexivity).
  vm_compute in E. discriminate.
Qed.

Lemma reconnectNow_opens s c :
  pool (this s) = None ->
  config (this s) = Some c ->
  exists tr,
    log (world (snd (reconnectNow s))) =
      log (world s) ++ clearing (this s) ++
      CreatePool (handles (world s)) (poolOptions c) :: tr.
Proof.
  destruct s as [[p0 c0 f h] [rm a o sl hd lg]].
  cbn [this pool config]. intros -> ->. unfold reconnectNow.
  repeat (run; try break_match;
          try match goal with
              | E : connect ?c1 ?s1 = _ |- _ =>
                  let L := fresh "L" in
                  destruct (connect_opens c1 s1 eq_refl) as (tr & L);
                  rewrite E in L; clear E
              end).
  all: run; rewrite L, <- ?app_assoc; eexists; reflexivity.
Qed.

(** C5, amended.  A caller whose probe fails while the flag is up polls
    the flag and sleeps 100 ms each time it finds it up, at most 20 times:
    it stops at the first poll that finds the flag down, so that every
    poll before the last sleep found it up, and the fields it goes on with
    are the fields as the other tasks left them during its last sleep.
    When a pool and a configuration are stored after that,
    it returns that pool and does nothing else.  Otherwise, the flag being
    down, it goes on with its own reconnection, which, when no pool is
    stored, opens one from the stored configuration. *)
Theorem waiting_caller_polls_then_returns_or_reconnects s p c e s1 :
  pool (this s) = Some p ->
  config (this s) = Some c ->
  isReconnecting (this s) = true ->
  validityProbe p s = (Throw e, s1) ->
  exists k s2,
    waitForReconnect 20 s1 = (Normal tt, s2) /\
    (k <= 20)%nat /\
    log (world s2) = log (world s1) ++ repeat (Sleep 100) k /\
    (forall j, (j < k)%nat -> isReconnecting (polled s1 j) = true) /\
    this s2 = polled s1 k /\
    slept (world s2) = (slept (world s1) + k)%nat /\
    ((k < 20)%nat -> isReconnecting (this s2) = false) /\
    match pool (this s2), config (this s2) with
    | Some p2, Some _ => ensureConnectionValid s = (Normal p2, s2)
    | _, _ =>
        isReconnecting (this s2) = false ->
        ensureConnectionValid s = reconnectNow s2 /\
        forall c2,
          pool (this s2) = None ->
          config (this s2) = Some c2 ->
          exists tr,
            log (world (snd (reconnectNow s2))) =
              log (world s2) ++ clearing (this s2) ++
              CreatePool (handles (world s2)) (poolOptions c2) :: tr
    end.
Proof.
  intros Hp Hc Hf E.
  destruct (validityProbe_inv _ _ _ _ E) as (_ & T1 & _).
  destruct (waitForReconnect_polls 20 s1)
    as (k & s2 & W & Hk & Hl & Hu & Ht & Hs & Hd).
  exists k, s2. repeat (split; [assumption|]).
  assert (U : ensureConnectionValid s =
              match pool (this s2), config (this s2) with
              | Some p2, Some _ => (Normal p2, s2)
              | _, _ => reconnectNow s2
              end).
  { unfold ensureConnectionValid, bind at 1, get_this at 1. rewrite Hp, Hc.
    unfold try_catch, bind at 1. rewrite E.
    unfold bind at 1, get_this at 1. rewrite T1, Hf.
    unfold bind at 1, bind at 1. rewrite W.
    unfold bind at 1, get_this at 1.
    destruct (pool (this s2)), (config (this s2)); reflexivity. }
  destruct (pool (this s2)) eqn:P2, (config (this s2)) eqn:C2;
    try exact U; intros _; (split; [exact U|]); intros c2 Q1 Q2;
    try discriminate.
  injection Q2 as ->. apply reconnectNow_opens; assumption.
Qed.

Lemma waiting_caller_polls_then_returns_or_reconnects_witness :
  exists k s2,
    waitForReconnect 20 (snd (validityProbe 0 waitingCaller)) =
      (Normal tt, s2) /\
    (k <= 20)%nat /\
    log (world s2) =
      log (world (snd (validityProbe 0 waitingCaller))) ++
      repeat (Sleep 100) k /\
    (forall j, (j < k)%nat ->
       isReconnecting (polled (snd (validityProbe 0 waitingCaller)) j) =
         true) /\
    this s2 = polled (snd (validityProbe 0 waitingCaller)) k.
Proof.
  destruct (waiting_caller_polls_then_returns_or_reconnects
              waitingCaller 0%nat exampleConfig connectionReset
              (snd (validityProbe 0 waitingCaller)))
    as (k & s2 & W & Hk & Hl & Hu & Ht & _); try (vm_compute; reflexivity).
  exists k, s2. repeat split; assumption.
Defined.

(** * Further properties of the class *)

(** ** How often the callback is called *)

Lemma retryLoop_invocations {T} (queryFn : nat -> Pool -> Promise T)
  retries left :
  forall i lastError s,
    (invocations
       (log (world (snd (retryLoop queryFn retries left i lastError s)))) <=
     invocations (log (world s)) + left)%nat.
Proof.
  induction left as [|left IH]; intros i lastError s.
  - cbn [retryLoop]. unfold throw. cbn [snd]. lia.
  - rewrite retryLoop_S. unfold try_catch, bind at 1.
    destruct (ensureConnectionValid s) as [r1 s1] eqn:E1.
    apply ensureConnectionValid_inv in E1. destruct E1 as [I1 _].
    assert (react :
      forall error s2,
        (invocations (log (world s2)) <= invocations (log (world s)) + 1)%nat ->
        (invocations
           (log (world (snd
              ((if isConnectionError (toError error)
                then
                  resetPool ;;
                  backoffAndReopen i retries ;;
                  retryLoop queryFn retries left (S i) (Some (toError error))
                else throw (ThrownError (toError error))) s2)))) <=
         invocations (log (world s)) + S left)%nat).
    { intros error s2 I2.
      destruct (isConnectionError (toError error)); [|unfold throw; cbn [snd]; lia].
      unfold bind.
      destruct (resetPool s2) as [r3 s3] eqn:E3.
      apply resetPool_inv in E3. destruct E3 as (_ & _ & I3 & _).
      destruct r3; cbn [snd]; try lia.
      destruct (backoffAndReopen i retries s3) as [r4 s4] eqn:E4.
      apply backoffAndReopen_inv in E4. destruct E4 as (_ & I4 & _).
      destruct r4; cbn [snd]; try lia.
      specialize (IH (S i) (Some (toError error)) s4). lia. }
    destruct r1 as [p| e |]; cbn [snd]; try lia.
    + unfold bind, emit, await.
      destruct (queryFn i p) as [v| e |]; cbn [snd world log].
      * rewrite invocations_app. cbn. lia.
      * apply react. cbn [world log]. rewrite invocations_app. cbn. lia.
      * rewrite invocations_app. cbn. lia.
    + apply react. lia.
Qed.

(** X1.  Whatever the state, the driver and the callback do,
    [executeQueryWithRetry] calls the callback at most [retries + 1]
    times. *)
Theorem callback_is_called_at_most_retries_plus_one
  T (queryFn : nat -> Pool -> Promise T) retries s :
  (invocations (log (world (snd (executeQueryWithRetry queryFn retries s)))) <=
   invocations (log (world s)) + S retries)%nat.
Proof. apply retryLoop_invocations. Qed.

(** ** What [ensureConnectionValid] throws *)

Lemma reconnectNow_throws s e s' :
  reconnectNow s = (Throw e, s') ->
  e = notConnected \/ e = cannotReconnect.
Proof.
  destruct s as [[p c f h] [rm a o sl hd lg]].
  unfold reconnectNow, cannotReconnect. intros H.
  repeat (run; try break_match); try discriminate.
  all: inversion H; subst; auto.
Qed.

(** X2.  [ensureConnectionValid] throws one of two errors of its own,
    whatever made the probe or the reconnection fail, and both pass the
    test on connection errors: a failed validation is never rethrown as
    an error of the query. *)
Theorem validation_errors_are_connection_errors s e s' :
  ensureConnectionValid s = (Throw e, s') ->
  (e = notConnected \/ e = cannotReconnect) /\
  isConnectionError (toError e) = true.
Proof.
  intros H.
  assert (K : e = notConnected \/ e = cannotReconnect).
  { destruct s as [[p c f h] [rm a o sl hd lg]].
    unfold ensureConnectionValid in H.
    repeat (run; try break_match;
            try match goal with
                | E : reconnectNow _ = (Throw _, _) |- _ =>
                    apply reconnectNow_throws in E
                | E : waitForReconnect _ _ = _ |- _ =>
                    apply waitForReconnect_invocations in E;
                    destruct E as [E _]
                end); try discriminate.
    all: inversion H; subst; auto. }
  split; [exact K|].
  destruct K as [-> | ->]; vm_compute; reflexivity.
Qed.

Lemma validation_errors_are_connection_errors_witness :
  (notConnected = notConnected \/ notConnected = cannotReconnect) /\
  isConnectionError (toError notConnected) = true.
Proof.
  apply (validation_errors_are_connection_errors
           (startWith healthy) notConnected (startWith healthy)).
  vm_compute. reflexivity.
Defined.

(** ** When the retry does not help *)

Lemma backoffAndReopen_last i retries s :
  Nat.ltb i retries = false ->
  backoffAndReopen i retries s = (Normal tt, s).
Proof.
  intros H. unfold backoffAndReopen, bind, get_this. rewrite H. reflexivity.
Qed.

Lemma first_round_fails T (queryFn : nat -> Pool -> Promise T) s p s1 e s3 :
  ensureConnectionValid s = (Normal p, s1) ->
  queryFn 0%nat p = Rejected e ->
  isConnectionError (toError e) = true ->
  (resetPool ;; backoffAndReopen 0 1) (logged (CallQueryFn 0 p) s1) =
    (Normal tt, s3) ->
  execute queryFn s = retryLoop queryFn 1 1 1 (Some (toError e)) s3 /\
  invocations (log (world s3)) = S (invocations (log (world s))).
Proof.
  intros H1 Hq0 Hc H3. split.
  - unfold execute, executeQueryWithRetry. rewrite retryLoop_S.
    unfold try_catch at 1, bind at 1. rewrite H1.
    unfold bind at 1, emit at 1. unfold await at 1. rewrite Hq0, Hc.
    change (mkSys (this s1)
              (mkWorld (remote (world s1)) (asked (world s1))
                 (others (world s1)) (slept (world s1)) (handles (world s1))
                 (log (world s1) ++ [CallQueryFn 0 p])))
      with (logged (CallQueryFn 0 p) s1).
    now rewrite (bind_bind_run _ _ _ _ _ _ H3).
  - pose proof (ensureConnectionValid_inv _ _ _ H1) as [I1 _].
    unfold bind in H3.
    destruct (resetPool (logged (CallQueryFn 0 p) s1)) as [r2 s2] eqn:E2.
    apply resetPool_inv in E2. destruct E2 as (_ & _ & I2 & _).
    destruct r2; try discriminate.
    apply backoffAndReopen_inv in H3. destruct H3 as (_ & I3 & _).
    unfold logged, emit in *. cbn [snd world log] in *.
    rewrite invocations_app in *. cbn [invocations filter is_call length] in *.
    lia.
Qed.

(** X3.  When the first call of the callback is rejected with a
    connection error and the reopening that follows leaves no pool, the
    call throws the "not connected" error of the validation, not the error
    of the query; the callback has been called once. *)
Theorem failed_reopen_hides_the_query_error
  T (queryFn : nat -> Pool -> Promise T) s p s1 e s3 :
  ensureConnectionValid s = (Normal p, s1) ->
  queryFn 0%nat p = Rejected e ->
  isConnectionError (toError e) = true ->
  (resetPool ;; backoffAndReopen 0 1) (logged (CallQueryFn 0 p) s1) =
    (Normal tt, s3) ->
  pool (this s3) = None ->
  execute queryFn s = (Throw notConnected, s3) /\
  invocations (log (world s3)) = S (invocations (log (world s))).
Proof.
  intros H1 Hq0 Hc H3 Hp.
  destruct (first_round_fails T queryFn s p s1 e s3 H1 Hq0 Hc H3) as [E I].
  split; [|exact I].
  rewrite E, retryLoop_S. unfold try_catch, bind at 1.
  rewrite (ensureConnectionValid_no_pool _ Hp).
  rewrite notConnected_isConnectionError.
  unfold bind at 1. rewrite (resetPool_no_pool _ Hp).
  unfold bind at 1. rewrite backoffAndReopen_last by reflexivity.
  reflexivity.
Qed.

Lemma failed_reopen_hides_the_query_error_witness :
  fst (execute flakyQuery (connected (failingAt 4 connectionReset))) =
    Throw notConnected.
Proof.
  pose (s := connected (failingAt 4 connectionReset)).
  pose (s1 := snd (ensureConnectionValid s)).
  pose (s3 := snd ((resetPool ;; backoffAndReopen 0 1)
                     (logged (CallQueryFn 0 0) s1))).
  destruct (failed_reopen_hides_the_query_error Z flakyQuery s 0%nat s1
              connectionReset s3) as (E & _).
  1-5: vm_compute; reflexivity.
  fold s. rewrite E. reflexivity.
Defined.

(** X4.  When the second call of the callback is rejected with a
    connection error too, the call throws that second error.  By then the
    pool has been ended again: the instance is left without pool and
    without heartbeat, and with its configuration.  The callback has been
    called twice. *)
Theorem exhausted_retries_throw_the_last_error
  T (queryFn : nat -> Pool -> Promise T) s p s1 e s3 p' s4 e' s5 :
  ensureConnectionValid s = (Normal p, s1) ->
  queryFn 0%nat p = Rejected e ->
  isConnectionError (toError e) = true ->
  (resetPool ;; backoffAndReopen 0 1) (logged (CallQueryFn 0 p) s1) =
    (Normal tt, s3) ->
  ensureConnectionValid s3 = (Normal p', s4) ->
  queryFn 1%nat p' = Rejected e' ->
  isConnectionError (toError e') = true ->
  resetPool (logged (CallQueryFn 1 p') s4) = (Normal tt, s5) ->
  execute queryFn s = (Throw (ThrownError (toError e')), s5) /\
  pool (this s5) = None /\
  heartbeatInterval (this s5) = None /\
  config (this s5) = config (this s4) /\
  config (this s5) <> None /\
  invocations (log (world s5)) = (invocations (log (world s)) + 2)%nat.
Proof.
  intros H1 Hq0 Hc H3 H4 Hq1 Hc' H5.
  destruct (first_round_fails T queryFn s p s1 e s3 H1 Hq0 Hc H3) as [E I].
  pose proof (ensureConnectionValid_inv _ _ _ H4) as (I4 & P4 & C4).
  pose proof (resetPool_inv _ _ _ H5) as (_ & C5 & I5 & P5).
  assert (P4' : pool (this (logged (CallQueryFn 1 p') s4)) = Some p')
    by exact P4.
  destruct (resetPool_log _ _ P4') as [_ K]. rewrite H5 in K. cbn [fst snd] in K.
  destruct K as [_ Hh]; [discriminate|].
  split; [|repeat split; try assumption].
  - rewrite E, retryLoop_S. unfold try_catch, bind at 1. rewrite H4.
    unfold bind at 1, emit at 1. unfold await at 1. rewrite Hq1, Hc'.
    change (mkSys (this s4)
              (mkWorld (remote (world s4)) (asked (world s4))
                 (others (world s4)) (slept (world s4)) (handles (world s4))
                 (log (world s4) ++ [CallQueryFn 1 p'])))
      with (logged (CallQueryFn 1 p') s4).
    unfold bind at 1. rewrite H5.
    unfold bind at 1. rewrite backoffAndReopen_last by reflexivity.
    reflexivity.
  - rewrite C5. exact C4.
  - unfold logged, emit in I5. cbn [snd world log] in I5.
    rewrite invocations_app in I5. cbn [invocations filter is_call length] in I5.
    lia.
Qed.

Lemma exhausted_retries_throw_the_last_error_witness :
  fst (execute (fun _ _ => @Rejected Z connectionReset) (connected healthy)) =
    Throw connectionReset.
Proof.
  pose (q := fun (_ : nat) (_ : Pool) => @Rejected Z connectionReset).
  pose (s := connected healthy).
  pose (s1 := snd (ensureConnectionValid s)).
  pose (s3 := snd ((resetPool ;; backoffAndReopen 0 1)
                     (logged (CallQueryFn 0 0) s1))).
  pose (s4 := snd (ensureConnectionValid s3)).
  pose (s5 := snd (resetPool (logged (CallQueryFn 1 2) s4))).
  destruct (exhausted_retries_throw_the_last_error Z q s 0%nat s1
              connectionReset s3 2%nat s4 connectionReset s5)
    as (E & _).
  1-8: vm_compute; reflexivity.
  fold q s. rewrite E. reflexivity.
Defined.

(** ** Healing inside [ensureConnectionValid] *)

(** X5.  With no reconnection under way, a probe that throws makes
    [ensureConnectionValid] clear the timer, end the pool and open a new
    one from the stored configuration.  When the new pool serves its first
    connection, that pool is returned, with a new timer.  When it does
    not, the error that is thrown is the fixed "cannot reconnect" error,
    not the error of the driver, and pool and timer are left null. *)
Theorem validation_heals_a_dead_pool s p c e s1 :
  pool (this s) = Some p ->
  config (this s) = Some c ->
  isReconnecting (this s) = false ->
  validityProbe p s = (Throw e, s1) ->
  remote (world s1) (asked (world s1)) <> Unsettled ->
  (remote (world s1) (S (asked (world s1))) = Resolved tt ->
   exists s2,
     ensureConnectionValid s = (Normal (handles (world s1)), s2) /\
     this s2 =
       mkCloudDatabase (Some (handles (world s1))) (Some c) false
                       (Some (S (handles (world s1)))) /\
     log (world s2) =
       log (world s1) ++ clearing (this s) ++
       [EndPool p;
        CreatePool (handles (world s1)) (poolOptions c);
        GetConnection (handles (world s1)) None;
        Release (handles (world s1));
        SetInterval (S (handles (world s1))) HEARTBEAT_INTERVAL]) /\
  (forall e2,
     remote (world s1) (S (asked (world s1))) = Rejected e2 ->
     remote (world s1) (S (S (asked (world s1)))) <> Unsettled ->
     exists s2,
       ensureConnectionValid s = (Throw cannotReconnect, s2) /\
       this s2 = mkCloudDatabase None (Some c) false None /\
       log (world s2) =
         log (world s1) ++ clearing (this s) ++
         [EndPool p;
          CreatePool (handles (world s1)) (poolOptions c);
          GetConnection (handles (world s1)) None;
          EndPool (handles (world s1))]).
Proof.
  intros Hp Hc Hf E Hend.
  destruct (validityProbe_inv _ _ _ _ E) as (_ & T1 & _).
  assert (U : ensureConnectionValid s = reconnectNow s1).
  { unfold ensureConnectionValid, bind at 1, get_this at 1. rewrite Hp, Hc.
    unfold try_catch, bind at 1. rewrite E.
    unfold bind at 1, get_this at 1. rewrite T1, Hf. reflexivity. }
  rewrite U. clear U E.
  destruct s as [[p0 c0 f0 h0] w0]. destruct s1 as [t1 [rm a o sl hd lg]].
  cbn [this world pool config isReconnecting remote asked handles log] in *.
  subst t1 p0 c0 f0.
  split.
  - intros Hok. unfold reconnectNow, connect.
    destruct h0; run_goal; destruct (rm a) as [[]| |] eqn:Ea;
      try congruence; run_goal; rewrite Hok; run_goal.
    all: eexists; split; [reflexivity|]; split; [reflexivity|].
    all: cbn [world log]; rewrite <- ?app_assoc; reflexivity.
  - intros e2 Hrej Hend2. unfold reconnectNow, connect.
    destruct h0; run_goal; destruct (rm a) as [[]| |] eqn:Ea;
      try congruence; run_goal; rewrite Hrej; run_goal;
      destruct (rm (S (S a))) as [[]| |] eqn:Eb; try congruence; run_goal.
    all: eexists; split; [reflexivity|]; split; [reflexivity|].
    all: cbn [world log]; rewrite <- ?app_assoc; reflexivity.
Qed.

(** A connected instance whose driver then fails once, at the first
    probe. *)
Lemma validation_heals_a_dead_pool_witness :
  exists s2,
    ensureConnectionValid (connected (failingAt 1 connectionReset)) =
      (Normal 2%nat, s2) /\
    this s2 =
      mkCloudDatabase (Some 2%nat) (Some exampleConfig) false (Some 3%nat).
Proof.
  pose (s := connected (failingAt 1 connectionReset)).
  destruct (validation_heals_a_dead_pool s 0%nat exampleConfig
              connectionReset (snd (validityProbe 0 s)))
    as [K _].
  1-4: vm_compute; reflexivity.
  - vm_compute. discriminate.
  - destruct K as (s2 & E & T & _); [vm_compute; reflexivity|].
    exists s2. split; [exact E|exact T].
Defined.

(** ** The heartbeat during a reconnection *)

(** X6.  A tick whose probe throws while a reconnection is under way does
    nothing about it: the fields are untouched and no handle is taken, so
    the pool is not ended and no pool is opened. *)
Theorem heartbeat_stands_back_during_reconnection s p c e s1 :
  pool (this s) = Some p ->
  config (this s) = Some c ->
  isReconnecting (this s) = true ->
  heartbeatProbe p s = (Throw e, s1) ->
  performHeartbeat s = (Normal tt, s1) /\
  this s1 = this s /\
  handles (world s1) = handles (world s).
Proof.
  intros Hp Hc Hf E.
  destruct (heartbeatProbe_inv _ _ _ _ E) as (T1 & H1 & _).
  repeat split; try assumption.
  unfold performHeartbeat, bind at 1, get_this at 1. rewrite Hp, Hc.
  unfold try_catch. rewrite E.
  unfold bind, get_this. rewrite T1, Hf. reflexivity.
Qed.

Lemma heartbeat_stands_back_during_reconnection_witness :
  performHeartbeat waitingCaller =
    (Normal tt, snd (heartbeatProbe 0 waitingCaller)).
Proof.
  apply (heartbeat_stands_back_during_reconnection waitingCaller 0%nat
           exampleConfig connectionReset);
    vm_compute; reflexivity.
Defined.

(** ** The comparison of targets *)

(** X7.  The comparison that decides whether [connect] keeps its pool
    does not see the passwords: its answer is the same whatever the two
    passwords are.  It is symmetric and transitive.  That a configuration
    compares equal to itself is not stated: the source compares the ports
    with [===], under which a port that is [NaN] is equal to nothing, itself
    included, and the integer ports of this development leave that value
    out. *)
Theorem sameTarget_does_not_see_the_password :
  (forall a b pw pw',
     sameTarget (mkConfig (host a) (port a) (database a) (user a) pw)
                (mkConfig (host b) (port b) (database b) (user b) pw') =
     sameTarget a b) /\
  (forall a b, sameTarget a b = sameTarget b a) /\
  (forall a b c,
     sameTarget a b = true -> sameTarget b c = true -> sameTarget a c = true).
Proof.
  split; [|split].
  - intros a b pw pw'. reflexivity.
  - intros a b. unfold sameTarget.
    now rewrite (String.eqb_sym (host a)), (Z.eqb_sym (port a)),
      (String.eqb_sym (database a)), (String.eqb_sym (user a)).
  - intros a b c H1 H2. apply sameTarget_spec in H1, H2.
    apply sameTarget_spec. intuition congruence.
Qed.

(** ** [disconnect] *)

(** X8.  [disconnect] returns whatever the driver does with the pool, as
    it does not wait for it: timer, pool and configuration are null
    afterwards, and a second [disconnect] changes nothing and asks
    nothing of the driver. *)
Theorem disconnect_returns_and_clears s :
  fst (disconnect s) = Normal tt /\
  this (snd (disconnect s)) =
    mkCloudDatabase None None (isReconnecting (this s)) None /\
  disconnect (snd (disconnect s)) = (Normal tt, snd (disconnect s)).
Proof.
  destruct s as [[p c f h] [rm a o sl hd lg]].
  unfold disconnect. destruct p, h; run_goal; repeat split.
Qed.

(** ** Pools and timers in the log *)

Lemma openPools_snoc l e :
  openPools (l ++ [e]) =
  match e with
  | CreatePool p _ => openPools l ++ [p]
  | EndPool p => remove Nat.eq_dec p (openPools l)
  | _ => openPools l
  end.
Proof. unfold openPools. rewrite fold_left_app. reflexivity. Qed.

Lemma activeTimers_snoc l e :
  activeTimers (l ++ [e]) =
  match e with
  | SetInterval t _ => activeTimers l ++ [t]
  | ClearInterval t => remove Nat.eq_dec t (activeTimers l)
  | _ => activeTimers l
  end.
Proof. unfold activeTimers. rewrite fold_left_app. reflexivity. Qed.

Lemma remove_only (x : nat) : remove Nat.eq_dec x [x] = [].
Proof. cbn. destruct (Nat.eq_dec x x); congruence. Qed.

(** Replaying the events that a run appended. *)
Ltac ledger :=
  repeat (first [rewrite openPools_snoc | rewrite activeTimers_snoc];
          cbv beta iota);
  repeat match goal with
         | H : openPools _ = _ |- _ => rewrite H
         | H : activeTimers _ = _ |- _ => rewrite H
         end;
  cbn [stored app]; rewrite ?remove_only; try reflexivity.

Lemma connect_tidy cfg s r s' :
  connect cfg s = (r, s') ->
  tidy s ->
  pool (this s) = None \/
  (exists c, config (this s) = Some c /\ sameTarget c cfg = true) ->
  r <> Stalled ->
  tidy s'.
Proof.
  destruct s as [[p c f h] [rm a o sl hd lg]].
  unfold connect, tidy. intros H T Hpre Hr.
  cbn [this world pool config log] in T, Hpre.
  assert (K : p = None \/ exists c0, c = Some c0 /\ sameTarget c0 cfg = true)
    by exact Hpre.
  clear Hpre.
  repeat (run; try break_match); try discriminate.
  all: inversion H; subst; run_goal; try congruence.
  all: try (destruct K as [K|(c1 & K1 & K2)]; [discriminate|];
            injection K1 as <-; congruence).
  all: try (destruct K as [K|(c1 & K1 & K2)]; discriminate).
  all: ledger.
Qed.

Lemma connect_ticking cfg s :
  ticking s -> ticking (snd (connect cfg s)).
Proof.
  destruct s as [[p c f h] [rm a o sl hd lg]].
  unfold connect, ticking. intros T.
  cbn [this world heartbeatInterval log] in T.
  repeat (run; try break_match); run_goal; ledger.
Qed.

Lemma connect_after_close cfg s r s' :
  connect cfg s = (r, s') ->
  pool (this s) = None ->
  (tidy s -> r <> Stalled -> tidy s') /\ (ticking s -> ticking s').
Proof.
  intros H Hp. split.
  - intros T Hr. apply (connect_tidy cfg s r s' H T); auto.
  - intros T. pose proof (connect_ticking cfg s T) as K.
    now rewrite H in K.
Qed.

(** Using what is known of a [connect] met on the way. *)
Ltac use_connect :=
  match goal with
  | E : connect ?c ?s1 = (?r, ?s2) |- _ =>
      let K1 := fresh "K" in
      let K2 := fresh "K" in
      apply connect_after_close in E; [|reflexivity];
      destruct E as [K1 K2];
      try (assert (tidy s1) by (unfold tidy; run_goal; ledger));
      try (assert (ticking s1) by (unfold ticking; run_goal; ledger))
  end.

Ltac ledger_close :=
  repeat match goal with
         | K : tidy ?s1 -> _, T : tidy ?s1 |- _ => specialize (K T)
         | K : ticking ?s1 -> _, T : ticking ?s1 |- _ => specialize (K T)
         | K : ?r <> Stalled -> _, N : ?r <> Stalled |- _ => specialize (K N)
         | K : ?r <> Stalled -> _ |- _ =>
             let N := fresh in
             assert (N : r <> Stalled) by discriminate; specialize (K N); clear N
         end;
  unfold tidy, ticking in *; run; try congruence; try assumption; ledger.

Lemma reconnectNow_ledger s r s' :
  reconnectNow s = (r, s') ->
  (tidy s -> r <> Stalled -> tidy s') /\
  (ticking s -> ticking s').
Proof.
  destruct s as [[p c f h] [rm a o sl hd lg]].
  unfold reconnectNow. intros H.
  split; [intros T Hr|intros T]; unfold tidy, ticking in T;
    cbn [this world pool heartbeatInterval log] in T.
  all: repeat (run; try break_match; try use_connect); try discriminate.
  all: inversion H; subst; try congruence.
  all: ledger_close.
Qed.

Ltac use_reconnectNow :=
  match goal with
  | E : reconnectNow ?s1 = (?r, ?s2) |- _ =>
      let K1 := fresh "K" in
      let K2 := fresh "K" in
      apply reconnectNow_ledger in E;
      destruct E as [K1 K2];
      try (assert (tidy s1) by (unfold tidy; run_goal; ledger));
      try (assert (ticking s1) by (unfold ticking; run_goal; ledger))
  end.

Lemma ensureConnectionValid_ledger s r s' :
  ensureConnectionValid s = (r, s') ->
  isReconnecting (this s) = false ->
  (tidy s -> r <> Stalled -> tidy s') /\
  (ticking s -> ticking s').
Proof.
  destruct s as [[p c f h] [rm a o sl hd lg]].
  unfold ensureConnectionValid. cbn [this isReconnecting]. intros H ->.
  split; [intros T Hr|intros T]; unfold tidy, ticking in T;
    cbn [this world pool heartbeatInterval log] in T.
  all: repeat (run; try break_match; try use_reconnectNow); try discriminate.
  all: inversion H; subst; try congruence.
  all: ledger_close.
Qed.

Lemma resetPool_ledger s r s' :
  resetPool s = (r, s') ->
  (tidy s -> r <> Stalled -> tidy s') /\
  (ticking s -> ticking s').
Proof.
  destruct s as [[p c f h] [rm a o sl hd lg]]. intros H.
  split; [intros T Hr|intros T]; unfold tidy, ticking in T;
    cbn [this world pool heartbeatInterval log] in T.
  all: repeat (run; try break_match); try discriminate.
  all: inversion H; subst; try congruence.
  all: ledger_close.
Qed.

Lemma backoffAndReopen_ledger i retries s r s' :
  backoffAndReopen i retries s = (r, s') ->
  pool (this s) = None ->
  (tidy s -> r <> Stalled -> tidy s') /\
  (ticking s -> ticking s').
Proof.
  destruct s as [[p c f h] [rm a o sl hd lg]].
  unfold backoffAndReopen. cbn [this pool]. intros H ->.
  split; [intros T Hr|intros T]; unfold tidy, ticking in T;
    cbn [this world pool heartbeatInterval log] in T.
  all: repeat (run; try break_match; try use_connect); try discriminate.
  all: inversion H; subst; try congruence.
  all: ledger_close.
Qed.

Lemma performHeartbeat_ledger s r s' :
  performHeartbeat s = (r, s') ->
  (tidy s -> r <> Stalled -> tidy s') /\
  (ticking s -> ticking s').
Proof.
  destruct s as [[p c f h] [rm a o sl hd lg]].
  unfold performHeartbeat. intros H.
  split; [intros T Hr|intros T]; unfold tidy, ticking in T;
    cbn [this world pool heartbeatInterval log] in T.
  all: repeat (run; try break_match; try use_connect); try discriminate.
  all: inversion H; subst; try congruence.
  all: ledger_close.
Qed.

Lemma disconnect_ledger s :
  (tidy s -> tidy (snd (disconnect s))) /\
  (ticking s -> ticking (snd (disconnect s))).
Proof.
  destruct s as [[p c f h] [rm a o sl hd lg]].
  unfold disconnect.
  split; intros T; unfold tidy, ticking in T;
    cbn [this world pool heartbeatInterval log] in T.
  all: destruct p, h; unfold tidy, ticking; run_goal; ledger.
Qed.

Lemma logged_call_ledger i p s :
  (tidy s -> tidy (logged (CallQueryFn i p) s)) /\
  (ticking s -> ticking (logged (CallQueryFn i p) s)).
Proof.
  destruct s as [t [rm a o sl hd lg]].
  split; intros T; unfold tidy, ticking in *; run; ledger.
Qed.

Lemma retryLoop_ledger {T} (queryFn : nat -> Pool -> Promise T)
  retries left :
  forall i lastError s r s',
    consistent (this s) ->
    retryLoop queryFn retries left i lastError s = (r, s') ->
    (tidy s -> r <> Stalled -> tidy s') /\
    (ticking s -> ticking s').
Proof.
  induction left as [|left IH]; intros i lastError s r s' Hc H.
  - cbn [retryLoop] in H. unfold throw in H. inversion H; subst. auto.
  - rewrite retryLoop_S in H.
    unfold try_catch, bind at 1 in H.
    destruct (ensureConnectionValid s) as [r1 s1] eqn:E1.
    pose proof (ensureConnectionValid_consistent _ _ _ Hc E1) as C1.
    destruct (ensureConnectionValid_ledger _ _ _ E1 (proj1 Hc)) as [P1 Q1].
    assert (react :
      forall error s2,
        consistent (this s2) ->
        (if isConnectionError (toError error)
         then
           resetPool ;;
           backoffAndReopen i retries ;;
           retryLoop queryFn retries left (S i) (Some (toError error))
         else throw (ThrownError (toError error))) s2 = (r, s') ->
        (tidy s2 -> r <> Stalled -> tidy s') /\ (ticking s2 -> ticking s')).
    { intros error s2 C2 H2.
      destruct (isConnectionError (toError error)).
      - unfold bind in H2.
        destruct (resetPool s2) as [r3 s3] eqn:E3.
        destruct (resetPool_ledger _ _ _ E3) as [P3 Q3].
        apply resetPool_inv in E3. destruct E3 as (F3 & G3 & _ & N3).
        destruct r3; [|contradiction|inversion H2; subst; split; [congruence|auto]].
        destruct (backoffAndReopen i retries s3) as [r4 s4] eqn:E4.
        destruct (backoffAndReopen_ledger _ _ _ _ _ E4 N3) as [P4 Q4].
        apply backoffAndReopen_inv in E4. destruct E4 as (F4 & _ & N4).
        destruct r4; [|contradiction|inversion H2; subst; split; [congruence|auto]].
        assert (C4 : consistent (this s4)).
        { destruct C2 as [C2f _]. split; [congruence|]. intros; auto. }
        destruct (IH _ _ _ _ _ C4 H2) as [P5 Q5].
        split.
        + intros T2 Hr. apply P5; [|exact Hr].
          apply P4; [|discriminate]. apply P3; [exact T2|discriminate].
        + intros T2. auto.
      - unfold throw in H2. inversion H2; subst. auto. }
    destruct r1 as [p| e |].
    + unfold bind at 1, emit at 1 in H.
      change (mkSys (this s1)
                (mkWorld (remote (world s1)) (asked (world s1))
                   (others (world s1)) (slept (world s1)) (handles (world s1))
                   (log (world s1) ++ [CallQueryFn i p])))
        with (logged (CallQueryFn i p) s1) in H.
      destruct (logged_call_ledger i p s1) as [Pc Qc].
      assert (Cc : consistent (this (logged (CallQueryFn i p) s1)))
        by (apply C1; discriminate).
      assert (Pn : tidy s -> tidy (logged (CallQueryFn i p) s1))
        by (intros; apply Pc, P1; [assumption|discriminate]).
      unfold await in H. destruct (queryFn i p) as [v| e |].
      * inversion H; subst. auto.
      * destruct (react e _ Cc H) as [Pr Qr]. split; auto.
      * inversion H; subst. split; [congruence|auto].
    + destruct (react e s1) as [Pr Qr]; [apply C1; discriminate|exact H|].
      split; [intros; apply Pr; auto; apply P1; [assumption|discriminate]|auto].
    + inversion H; subst. split; [congruence|auto].
Qed.

(** X9.  No pool is leaked by healing, retrying or disconnecting.  Take a
    state between calls in which the pool the instance holds is the only
    pool open.  After [executeQueryWithRetry], after a tick of the
    heartbeat, after [disconnect], and after a [connect] that finds no
    pool or the same target stored, once the call has returned or thrown,
    the pool the instance holds is again the only pool open. *)
Theorem healing_and_retry_leak_no_pool s :
  consistent (this s) ->
  tidy s ->
  (forall T (queryFn : nat -> Pool -> Promise T) retries,
     fst (executeQueryWithRetry queryFn retries s) <> Stalled ->
     tidy (snd (executeQueryWithRetry queryFn retries s))) /\
  (fst (performHeartbeat s) <> Stalled -> tidy (snd (performHeartbeat s))) /\
  tidy (snd (disconnect s)) /\
  (forall cfg,
     pool (this s) = None \/
     (exists c, config (this s) = Some c /\ sameTarget c cfg = true) ->
     fst (connect cfg s) <> Stalled ->
     tidy (snd (connect cfg s))).
Proof.
  intros Hc Ht. repeat split.
  - intros T queryFn retries Hr. unfold executeQueryWithRetry in *.
    destruct (retryLoop queryFn retries (S retries) 0 None s) as [r s'] eqn:E.
    cbn [fst snd] in *.
    now apply (retryLoop_ledger _ _ _ _ _ _ _ _ Hc E).
  - intros Hr. destruct (performHeartbeat s) as [r s'] eqn:E.
    cbn [fst snd] in *. now apply (performHeartbeat_ledger _ _ _ E).
  - now apply disconnect_ledger.
  - intros cfg Hpre Hr. destruct (connect cfg s) as [r s'] eqn:E.
    cbn [fst snd] in *. now apply (connect_tidy _ _ _ _ E).
Qed.

Lemma healing_and_retry_leak_no_pool_witness :
  tidy (snd (disconnect (connected healthy))).
Proof.
  refine (proj1 (proj2 (proj2
            (healing_and_retry_leak_no_pool (connected healthy) _ _)))).
  - vm_compute. split; [reflexivity|intros _; split; discriminate].
  - vm_compute. reflexivity.
Defined.

(** X10.  There is never more than one heartbeat timer.  Take a state
    between calls in which the timer the instance holds is the only timer
    set.  Wherever [connect] (with any configuration), [disconnect], a
    tick or [executeQueryWithRetry] gets to, even when it stalls, the
    timer the instance holds is the only timer set. *)
Theorem at_most_one_heartbeat_timer s :
  consistent (this s) ->
  ticking s ->
  (forall cfg, ticking (snd (connect cfg s))) /\
  ticking (snd (disconnect s)) /\
  ticking (snd (performHeartbeat s)) /\
  (forall T (queryFn : nat -> Pool -> Promise T) retries,
     ticking (snd (executeQueryWithRetry queryFn retries s))).
Proof.
  intros Hc Ht. repeat split.
  - intros cfg. now apply connect_ticking.
  - now apply disconnect_ledger.
  - destruct (performHeartbeat s) as [r s'] eqn:E.
    cbn [snd]. now apply (performHeartbeat_ledger _ _ _ E).
  - intros T queryFn retries. unfold executeQueryWithRetry.
    destruct (retryLoop queryFn retries (S retries) 0 None s) as [r s'] eqn:E.
    cbn [snd]. now apply (retryLoop_ledger _ _ _ _ _ _ _ _ Hc E).
Qed.

Lemma at_most_one_heartbeat_timer_witness :
  ticking (snd (connect otherConfig (connected healthy))).
Proof.
  refine (proj1 (at_most_one_heartbeat_timer (connected healthy) _ _)
            otherConfig).
  - vm_compute. split; [reflexivity|intros _; split; discriminate].
  - vm_compute. reflexivity.
Defined.

(** ** The handlers of the cloud connection *)

(** X11.  [test-cloud-db] never throws and touches neither [cloudDb] nor
    the files.  When it returns, it reports success exactly when the
    [connect] of its throw-away instance returned, and everything it
    opened is closed again: among the events it appended no pool is left
    open and no timer is left set. *)
Theorem test_handler_cleans_up cfg st :
  cloudDb (snd (handleTestCloudDb cfg st)) = cloudDb st /\
  fsLog (snd (handleTestCloudDb cfg st)) = fsLog st /\
  (forall e, fst (handleTestCloudDb cfg st) <> Throw e) /\
  (forall res,
     fst (handleTestCloudDb cfg st) = Normal res ->
     (success res = true <->
      fst (connect cfg (mkSys new_CloudDatabase (env st))) = Normal tt) /\
     exists tr,
       log (env (snd (handleTestCloudDb cfg st))) = log (env st) ++ tr /\
       openPools tr = [] /\
       activeTimers tr = []).
Proof.
  destruct st as [db calls [rm a o sl hd lg]].
  unfold handleTestCloudDb, connect, disconnect, new_CloudDatabase.
  cbn [env cloudDb fsLog].
  run_goal.
  destruct (rm a) as [[]|e1|]; run_goal;
    destruct (rm (S a)) as [[]|e2|]; run_goal.
  all: split; [reflexivity|]; split; [reflexivity|];
    split; [intros e; discriminate|].
  all: intros res R; try discriminate; injection R as <-.
  all: split; [split; intros X; cbn [success] in *;
               try reflexivity; try discriminate|].
  all: rewrite <- ?app_assoc; eexists; split; [reflexivity|].
  all: unfold openPools, activeTimers; cbn [fold_left app];
    rewrite ?remove_only; split; reflexivity.
Qed.

(** X12.  [connect-cloud-db] never throws.  It disconnects the instance
    it finds before it creates the pool of the new one, so that, when
    every pool open and every timer set belonged to the old instance, they
    all belong to the new one after it has returned.  [cloudDb] then
    holds the new instance even when its [connect] failed.  The
    configuration is written to the file, as it was received, exactly when
    [connect] returned.  [disconnect-cloud-db] leaves no instance, no pool
    open and no timer set. *)
Theorem switching_handlers_leak_nothing cfg st :
  accounted st ->
  (fst (handleConnectCloudDb cfg st) <> Stalled ->
   accounted (snd (handleConnectCloudDb cfg st))) /\
  (forall e, fst (handleConnectCloudDb cfg st) <> Throw e) /\
  (exists tr,
     log (env (snd (handleConnectCloudDb cfg st))) =
       log (env st) ++
       match cloudDb st with
       | Some old =>
           clearing old ++
           match pool old with
           | Some p => [EndPool p]
           | None => []
           end
       | None => []
       end ++
       CreatePool (handles (env st)) (poolOptions cfg) :: tr) /\
  (forall res,
     fst (handleConnectCloudDb cfg st) = Normal res ->
     exists inst,
       cloudDb (snd (handleConnectCloudDb cfg st)) = Some inst /\
       config inst = Some cfg /\
       (success res = true ->
        pool inst <> None /\
        fsLog (snd (handleConnectCloudDb cfg st)) =
          fsLog st ++ [WriteCloudConfig cfg]) /\
       (success res = false ->
        pool inst = None /\
        fsLog (snd (handleConnectCloudDb cfg st)) = fsLog st)) /\
  (fst (handleDisconnectCloudDb st) = Normal (mkResult true None) /\
   cloudDb (snd (handleDisconnectCloudDb st)) = None /\
   accounted (snd (handleDisconnectCloudDb st))).
Proof.
  destruct st as [db calls [rm a o sl hd lg]].
  unfold accounted, tidy, ticking, handleConnectCloudDb,
    handleDisconnectCloudDb, saveCloudConfig, connect, disconnect,
    new_CloudDatabase.
  cbn [env cloudDb fsLog].
  destruct db as [[p c f h]|]; intros [Tp Tt];
    cbn [this world pool heartbeatInterval log] in Tp, Tt.
  all: repeat (run; cbn [cloudDb fsLog env] in *; try break_match).
  all: split; [intros; try congruence; split; ledger|].
  all: split; [intros ? ?; discriminate|].
  all: split; [rewrite <- ?app_assoc; cbn [app]; eexists; reflexivity|].
  all: split; [|repeat split; ledger].
  all: intros res R; try discriminate; injection R as <-.
  all: eexists; split; [reflexivity|]; split; [reflexivity|].
  all: cbn [success]; split; intros X; try discriminate.
  all: split; [try discriminate; reflexivity|reflexivity].
Qed.

Lemma switching_handlers_leak_nothing_witness :
  accounted (snd (handleConnectCloudDb otherConfig mainConnected)).
Proof.
  refine (proj1 (switching_handlers_leak_nothing otherConfig mainConnected _)
            _).
  - vm_compute. split; reflexivity.
  - vm_compute. discriminate.
Defined.

(** * The images of an export *)

(** ** Reading the size of an image *)

Lemma byteZ_bounded b : 0 <= byteZ b < 256.
Proof.
  unfold byteZ. pose proof (Byte.to_N_bounded b). lia.
Qed.

Lemma byteZ_toByte z : 0 <= z < 256 -> byteZ (toByte z) = z.
Proof.
  intros Hz. unfold toByte, byteZ.
  destruct (Byte.of_N (Z.to_N z)) as [b|] eqn:E.
  - apply Byte.to_of_N in E. rewrite E. lia.
  - apply Byte.of_N_None_iff in E. lia.
Qed.

Lemma readUInt16BE_bounded buffer offset z :
  readUInt16BE buffer offset = Some z -> 0 <= z < 2 ^ 16.
Proof.
  unfold readUInt16BE.
  destruct (nth_error buffer offset) as [b0|]; [|discriminate].
  destruct (nth_error buffer (offset + 1)) as [b1|]; [|discriminate].
  intros H. injection H as <-.
  pose proof (byteZ_bounded b0). pose proof (byteZ_bounded b1).
  change (2 ^ 8) with 256. change (2 ^ 16) with 65536. lia.
Qed.

Lemma readUInt32BE_bounded buffer offset z :
  readUInt32BE buffer offset = Some z -> 0 <= z < 2 ^ 32.
Proof.
  unfold readUInt32BE.
  destruct (nth_error buffer offset) as [b0|]; [|discriminate].
  destruct (nth_error buffer (offset + 1)) as [b1|]; [|discriminate].
  destruct (nth_error buffer (offset + 2)) as [b2|]; [|discriminate].
  destruct (nth_error buffer (offset + 3)) as [b3|]; [|discriminate].
  intros H. injection H as <-.
  pose proof (byteZ_bounded b0). pose proof (byteZ_bounded b1).
  pose proof (byteZ_bounded b2). pose proof (byteZ_bounded b3).
  change (2 ^ 8) with 256. change (2 ^ 16) with 65536.
  change (2 ^ 24) with 16777216. change (2 ^ 32) with 4294967296. lia.
Qed.

Lemma readUInt32BE_in_range buffer offset z :
  readUInt32BE buffer offset = Some z -> (offset + 4 <= length buffer)%nat.
Proof.
  unfold readUInt32BE.
  destruct (nth_error buffer offset) as [b0|]; [|discriminate].
  destruct (nth_error buffer (offset + 1)) as [b1|]; [|discriminate].
  destruct (nth_error buffer (offset + 2)) as [b2|]; [|discriminate].
  destruct (nth_error buffer (offset + 3)) as [b3|] eqn:E; [|discriminate].
  intros _. assert (K : nth_error buffer (offset + 3) <> None) by congruence.
  apply nth_error_Some in K. lia.
Qed.

Lemma be32_digits z :
  0 <= z < 2 ^ 32 ->
  0 <= z / 256 / 256 / 256 < 256 /\
  z / 256 / 256 / 256 * 2 ^ 24 + z / 256 / 256 mod 256 * 2 ^ 16 +
  z / 256 mod 256 * 2 ^ 8 + z mod 256 = z.
Proof.
  change (2 ^ 32) with 4294967296. change (2 ^ 8) with 256.
  change (2 ^ 16) with 65536. change (2 ^ 24) with 16777216.
  intros Hz.
  pose proof (Z.div_mod z 256). pose proof (Z.mod_pos_bound z 256).
  pose proof (Z.div_mod (z / 256) 256).
  pose proof (Z.mod_pos_bound (z / 256) 256).
  pose proof (Z.div_mod (z / 256 / 256) 256).
  pose proof (Z.mod_pos_bound (z / 256 / 256) 256).
  lia.
Qed.

Lemma readUInt32BE_be32 front z back :
  0 <= z < 2 ^ 32 ->
  readUInt32BE (front ++ be32 z ++ back) (length front) = Some z.
Proof.
  intros Hz. destruct (be32_digits z Hz) as [Hq Hv].
  unfold readUInt32BE, be32.
  assert (N : forall k l,
            nth_error (front ++ l) (length front + k) = nth_error l k).
  { intros k l. rewrite nth_error_app2 by lia. f_equal. lia. }
  rewrite !N. rewrite <- (Nat.add_0_r (length front)) at 1. rewrite N.
  cbn [nth_error app].
  rewrite !byteZ_toByte; try (apply Z.mod_pos_bound; lia); try exact Hq.
  now rewrite Hv.
Qed.

(** X13.  A PNG header is read back as it was written: for a buffer
    that starts with the four signature bytes the function checks, holds
    twelve more bytes and then width and height on four bytes each, most
    significant first, the size that is returned is that width and that
    height, whatever follows.  A buffer with the signature and fewer than
    24 bytes gives [null]: the read past the end is caught. *)
Theorem png_size_round_trip :
  (forall middle w h rest,
     length middle = 12%nat ->
     0 <= w < 2 ^ 32 ->
     0 <= h < 2 ^ 32 ->
     dimensionsOfBuffer (pngSignature ++ middle ++ be32 w ++ be32 h ++ rest) =
       Some (mkDimensions w h)) /\
  (forall rest,
     (length (pngSignature ++ rest) < 24)%nat ->
     dimensionsOfBuffer (pngSignature ++ rest) = None).
Proof.
  split.
  - intros middle w h rest Hm Hw Hh.
    unfold dimensionsOfBuffer. cbn [pngSignature app byteIs nth_error].
    change (Byte.eqb Byte.x89 Byte.x89) with true.
    change (Byte.eqb Byte.x50 Byte.x50) with true.
    change (Byte.eqb Byte.x4e Byte.x4e) with true.
    change (Byte.eqb Byte.x47 Byte.x47) with true.
    cbn [andb].
    pose proof (readUInt32BE_be32
                  (Byte.x89 :: Byte.x50 :: Byte.x4e :: Byte.x47 :: middle)
                  w (be32 h ++ rest) Hw) as Rw.
    pose proof (readUInt32BE_be32
                  ((Byte.x89 :: Byte.x50 :: Byte.x4e :: Byte.x47 :: middle)
                   ++ be32 w)
                  h rest Hh) as Rh.
    rewrite <- app_assoc in Rh.
    rewrite length_app in Rh. cbn [length be32] in Rw, Rh. rewrite Hm in Rw, Rh.
    cbn [app Nat.add] in Rw, Rh. rewrite Rw, Rh. reflexivity.
  - intros rest Hlen.
    unfold dimensionsOfBuffer. cbn [pngSignature app byteIs nth_error].
    change (Byte.eqb Byte.x89 Byte.x89) with true.
    change (Byte.eqb Byte.x50 Byte.x50) with true.
    change (Byte.eqb Byte.x4e Byte.x4e) with true.
    change (Byte.eqb Byte.x47 Byte.x47) with true.
    cbn [andb].
    destruct (readUInt32BE _ 16) as [w|]; [|reflexivity].
    destruct (readUInt32BE _ 20) as [h|] eqn:E; [|reflexivity].
    apply readUInt32BE_in_range in E.
    cbn [pngSignature app length] in Hlen, E. lia.
Qed.

Lemma findSOF_sound buffer left :
  forall i d,
    findSOF buffer left i = Some d <->
    exists k,
      (k < left)%nat /\
      isSOF buffer (i + k) = true /\
      (forall j, (j < k)%nat -> isSOF buffer (i + j) = false) /\
      readUInt16BE buffer (i + k + 5) = Some (height d) /\
      readUInt16BE buffer (i + k + 7) = Some (width d).
Proof.
  induction left as [|left IH]; intros i d; cbn [findSOF].
  - split; [discriminate|]. intros (k & Hk & _). lia.
  - destruct (isSOF buffer i) eqn:E.
    + split.
      * intros H. exists 0%nat. rewrite !Nat.add_0_r.
        destruct (readUInt16BE buffer (i + 5)) as [h|]; [|discriminate].
        destruct (readUInt16BE buffer (i + 7)) as [w|]; [|discriminate].
        injection H as <-. cbn [width height].
        repeat split; auto; try lia.
      * intros (k & Hk & Hs & Hfirst & Hh & Hw).
        destruct k as [|k].
        -- rewrite !Nat.add_0_r in Hh, Hw. rewrite Hh, Hw.
           now destruct d.
        -- specialize (Hfirst 0%nat). rewrite Nat.add_0_r in Hfirst.
           rewrite Hfirst in E by lia. discriminate.
    + rewrite IH. split.
      * intros (k & Hk & Hs & Hfirst & Hh & Hw). exists (S k).
        replace (i + S k)%nat with (S i + k)%nat by lia.
        repeat split; auto; try lia.
        intros j Hj. destruct j as [|j].
        -- now rewrite Nat.add_0_r.
        -- replace (i + S j)%nat with (S i + j)%nat by lia.
           apply Hfirst. lia.
      * intros (k & Hk & Hs & Hfirst & Hh & Hw).
        destruct k as [|k].
        -- rewrite Nat.add_0_r in Hs. congruence.
        -- exists k. replace (S i + k)%nat with (i + S k)%nat by lia.
           repeat split; auto; try lia.
           intros j Hj. replace (S i + j)%nat with (i + S j)%nat by lia.
           apply Hfirst. lia.
Qed.

Lemma jpeg_is_not_png buffer :
  byteIs buffer 0 Byte.xff = true -> byteIs buffer 0 Byte.x89 = false.
Proof.
  unfold byteIs. destruct (nth_error buffer 0) as [x|]; [|reflexivity].
  intros H. apply Byte.byte_dec_bl in H. subst x. reflexivity.
Qed.

(** X14.  For a buffer that starts with [ff d8], the size that is
    returned is read at the first start-of-frame marker ([ff] followed by
    [c0] to [c3]) found from index 2 on and more than 8 bytes before the
    end: the height from the two bytes at 5 and 6 after it, the width
    from the two bytes at 7 and 8; without such a marker the result is
    [null]. *)
Theorem jpeg_size_is_read_at_the_first_marker buffer d :
  byteIs buffer 0 Byte.xff = true ->
  byteIs buffer 1 Byte.xd8 = true ->
  (dimensionsOfBuffer buffer = Some d <->
   exists i,
     (2 <= i)%nat /\
     (i + 8 < length buffer)%nat /\
     isSOF buffer i = true /\
     (forall j, (2 <= j < i)%nat -> isSOF buffer j = false) /\
     readUInt16BE buffer (i + 5) = Some (height d) /\
     readUInt16BE buffer (i + 7) = Some (width d)).
Proof.
  intros H0 H1. unfold dimensionsOfBuffer.
  rewrite (jpeg_is_not_png buffer H0), H0, H1. cbn [andb].
  rewrite findSOF_sound. split.
  - intros (k & Hk & Hs & Hfirst & Hh & Hw). exists (2 + k)%nat.
    repeat split; auto; try lia.
    intros j Hj. replace j with (2 + (j - 2))%nat by lia. apply Hfirst. lia.
  - intros (i & Hi & Hlen & Hs & Hfirst & Hh & Hw). exists (i - 2)%nat.
    replace (2 + (i - 2))%nat with i by lia.
    repeat split; auto; try lia.
    intros j Hj. apply Hfirst. lia.
Qed.

Lemma jpeg_size_is_read_at_the_first_marker_witness :
  dimensionsOfBuffer
    (jpegSignature ++
     [Byte.xff; Byte.xc0; Byte.x00; Byte.x11; Byte.x08] ++
     be16 480 ++ be16 640 ++ [Byte.x03]) =
  Some (mkDimensions 640 480).
Proof.
  apply jpeg_size_is_read_at_the_first_marker.
  - reflexivity.
  - reflexivity.
  - exists 2%nat. repeat split; try (vm_compute; reflexivity); try lia.
    cbn. lia.
Defined.

(** X15.  A size is only returned for a buffer that starts with the PNG
    signature and has at least 24 bytes, or that starts with [ff d8] and
    has at least 11 bytes; every other buffer, the empty one included,
    gives [null].  Width and height are below [2 ^ 32] for the first and
    below [2 ^ 16] for the second, and never negative. *)
Theorem size_needs_a_known_header buffer d :
  dimensionsOfBuffer buffer = Some d ->
  (byteIs buffer 0 Byte.x89 && byteIs buffer 1 Byte.x50 &&
   byteIs buffer 2 Byte.x4e && byteIs buffer 3 Byte.x47 = true /\
   (24 <= length buffer)%nat /\
   0 <= width d < 2 ^ 32 /\ 0 <= height d < 2 ^ 32) \/
  (byteIs buffer 0 Byte.xff && byteIs buffer 1 Byte.xd8 = true /\
   (11 <= length buffer)%nat /\
   0 <= width d < 2 ^ 16 /\ 0 <= height d < 2 ^ 16).
Proof.
  unfold dimensionsOfBuffer.
  destruct (byteIs buffer 0 Byte.x89 && byteIs buffer 1 Byte.x50 &&
            byteIs buffer 2 Byte.x4e && byteIs buffer 3 Byte.x47).
  - destruct (readUInt32BE buffer 16) as [w|] eqn:Ew; [|discriminate].
    destruct (readUInt32BE buffer 20) as [h|] eqn:Eh; [|discriminate].
    intros H. injection H as <-. left. cbn [width height].
    pose proof (readUInt32BE_in_range _ _ _ Eh).
    apply readUInt32BE_bounded in Ew, Eh. repeat split; try lia.
  - destruct (byteIs buffer 0 Byte.xff && byteIs buffer 1 Byte.xd8);
      [|discriminate].
    intros H. right. apply findSOF_sound in H.
    destruct H as (k & Hk & _ & _ & Hh & Hw).
    apply readUInt16BE_bounded in Hh, Hw. repeat split; try lia.
Qed.

Lemma size_needs_a_known_header_witness :
  (byteIs (pngSignature ++ repeat Byte.x00 12 ++ be32 640 ++ be32 480) 0
     Byte.x89 &&
   byteIs (pngSignature ++ repeat Byte.x00 12 ++ be32 640 ++ be32 480) 1
     Byte.x50 &&
   byteIs (pngSignature ++ repeat Byte.x00 12 ++ be32 640 ++ be32 480) 2
     Byte.x4e &&
   byteIs (pngSignature ++ repeat Byte.x00 12 ++ be32 640 ++ be32 480) 3
     Byte.x47 = true /\
   (24 <= length (pngSignature ++ repeat Byte.x00 12 ++ be32 640 ++ be32 480))%nat /\
   0 <= width (mkDimensions 640 480) < 2 ^ 32 /\
   0 <= height (mkDimensions 640 480) < 2 ^ 32) \/
  (byteIs (pngSignature ++ repeat Byte.x00 12 ++ be32 640 ++ be32 480) 0
     Byte.xff &&
   byteIs (pngSignature ++ repeat Byte.x00 12 ++ be32 640 ++ be32 480) 1
     Byte.xd8 = true /\
   (11 <= length (pngSignature ++ repeat Byte.x00 12 ++ be32 640 ++ be32 480))%nat /\
   0 <= width (mkDimensions 640 480) < 2 ^ 16 /\
   0 <= height (mkDimensions 640 480) < 2 ^ 16).
Proof.
  apply (size_needs_a_known_header
           (pngSignature ++ repeat Byte.x00 12 ++ be32 640 ++ be32 480)
           (mkDimensions 640 480)).
  vm_compute. reflexivity.
Defined.

(** ** Saving the images *)

Lemma map_get_set {V} (m : list (string * V)) key (v : V) :
  map_get (map_set key v m) key = Some v.
Proof.
  unfold map_get, map_set. cbn [find fst snd]. now rewrite String.eqb_refl.
Qed.

Lemma map_get_In {V} (m : list (string * V)) key (v : V) :
  map_get m key = Some v -> In (key, v) m.
Proof.
  unfold map_get. destruct (find _ m) as [[k v']|] eqn:E; [|discriminate].
  intros H. injection H as <-. apply find_some in E. destruct E as [Hin Hk].
  cbn [fst snd] in *. apply String.eqb_eq in Hk. now subst k.
Qed.

(** X16.  An image is saved once: when [saveImageToFile] has returned a
    path for a data URL, saving the same data URL again returns the same
    path, writes no file and takes no number. *)
Theorem saved_image_is_not_saved_again
  dataUrl fromBase64 writeThrows base64Data st path st' :
  saveImageToFile dataUrl fromBase64 writeThrows base64Data st = (path, st') ->
  path <> EmptyString ->
  saveImageToFile dataUrl fromBase64 writeThrows base64Data st' = (path, st').
Proof.
  unfold saveImageToFile at 1.
  destruct (map_get (imageMap st) base64Data) as [p|] eqn:E.
  - intros H _. injection H as <- <-. unfold saveImageToFile. now rewrite E.
  - destruct (dataUrl base64Data) as [[imageType base64Content]|].
    + destruct (writeThrows _).
      * intros H Hp. injection H as <- <-. congruence.
      * intros H _. injection H as <- <-.
        unfold saveImageToFile. cbn [imageMap]. now rewrite map_get_set.
    + intros H Hp. injection H as <- <-. congruence.
Qed.

Lemma saved_image_is_not_saved_again_witness :
  saveImageToFile (fun s => Some ("png", s)) (fun _ => pngSignature)
    (fun _ => false) "data:image/png;base64,iVBO"
    (snd (saveImageToFile (fun s => Some ("png", s)) (fun _ => pngSignature)
            (fun _ => false) "data:image/png;base64,iVBO" newExport)) =
  ("images/image_1.png",
   snd (saveImageToFile (fun s => Some ("png", s)) (fun _ => pngSignature)
          (fun _ => false) "data:image/png;base64,iVBO" newExport)).
Proof.
  apply (saved_image_is_not_saved_again _ _ _ _ newExport).
  - reflexivity.
  - discriminate.
Defined.

(** The names of the files differ when the numbers differ. *)
Lemma no_dot_decimal n : no_dot (decimal n) = true.
Proof.
  unfold decimal. generalize (Nat.to_uint n) as d.
  induction d; cbn; auto.
Qed.

Lemma split_at_dot a b x y :
  no_dot a = true ->
  no_dot b = true ->
  (a ++ String "." x)%string = (b ++ String "." y)%string ->
  a = b.
Proof.
  revert b. induction a as [|c a IH]; intros [|c' b] Ha Hb H; cbn in *.
  - reflexivity.
  - injection H as <- _. cbn in Hb. discriminate.
  - injection H as -> _. cbn in Ha. discriminate.
  - injection H as <- H. f_equal.
    apply andb_true_iff in Ha, Hb. apply IH; tauto.
Qed.

Lemma decimal_inj n n' : decimal n = decimal n' -> n = n'.
Proof.
  unfold decimal. intros H.
  apply (f_equal DecimalString.NilEmpty.uint_of_string) in H.
  rewrite !DecimalString.NilEmpty.usu in H. injection H as H.
  now apply DecimalNat.Unsigned.to_uint_inj.
Qed.

Lemma imageFileName_inj n ext n' ext' :
  imageFileName n ext = imageFileName n' ext' -> n = n'.
Proof.
  unfold imageFileName. cbn [String.append]. intros H.
  injection H as H. apply decimal_inj.
  apply (split_at_dot _ _ ext ext'); auto using no_dot_decimal.
Qed.

Lemma map_get_None {V} (m : list (string * V)) key :
  map_get m key = None -> ~ In key (map fst m).
Proof.
  unfold map_get. destruct (find _ m) as [kv|] eqn:E; [discriminate|].
  intros _ Hin. apply in_map_iff in Hin. destruct Hin as [[k v] [Hk Hin]].
  cbn in Hk. subst k.
  apply (find_none _ _ E) in Hin. cbn in Hin.
  now rewrite String.eqb_refl in Hin.
Qed.

Lemma same_value_same_key {V} (m : list (string * V)) a b v :
  NoDup (map snd m) -> In (a, v) m -> In (b, v) m -> a = b.
Proof.
  induction m as [|[k w] m IH]; cbn; [tauto|].
  intros N [Ha|Ha] [Hb|Hb].
  - congruence.
  - injection Ha as -> ->. apply NoDup_cons_iff in N. destruct N as [N _].
    exfalso. apply N. apply in_map_iff. now exists (b, v).
  - injection Hb as -> ->. apply NoDup_cons_iff in N. destruct N as [N _].
    exfalso. apply N. apply in_map_iff. now exists (a, v).
  - apply NoDup_cons_iff in N. destruct N as [_ N]. now apply IH.
Qed.

Lemma NoDup_snoc {A} (l : list A) (x : A) :
  NoDup l -> ~ In x l -> NoDup (l ++ [x]).
Proof.
  intros N Hx. apply NoDup_app; auto.
  - constructor; [cbn; tauto | constructor].
  - intros y Hy [<-|[]]. tauto.
Qed.

Section SavedImages.

Variable dataUrl : string -> option (string * string).
Variable fromBase64 : string -> list Byte.byte.
Variable writeThrows : string -> bool.

Lemma kept_newExport : kept dataUrl fromBase64 newExport.
Proof.
  repeat split; cbn; try tauto; constructor.
Qed.

Lemma fresh_name st ext :
  kept dataUrl fromBase64 st -> ~ In (imageFileName (S (imageCounter st)) ext) (map fst (written st)).
Proof.
  intros [K _] Hin. apply in_map_iff in Hin. destruct Hin as [[name buffer] [E Hin]].
  cbn [fst] in E. subst name. destruct (K _ _ Hin) as [k [ext' [E Hk]]].
  apply imageFileName_inj in E. lia.
Qed.

Lemma saveImageToFile_kept base64Data st :
  kept dataUrl fromBase64 st ->
  kept dataUrl fromBase64 (snd (saveImageToFile dataUrl fromBase64 writeThrows base64Data st)).
Proof.
  intros K. pose proof K as [Kn [Kw [Km Kp]]].
  unfold saveImageToFile.
  destruct (map_get (imageMap st) base64Data) as [p|] eqn:E; [exact K|].
  destruct (dataUrl base64Data) as [[imageType base64Content]|] eqn:D; [|exact K].
  set (ext := if String.eqb imageType "jpeg" then "jpg" else imageType).
  destruct (writeThrows _); cbn [snd].
  - repeat split; cbn [written imageMap imageCounter]; auto.
    intros name buffer Hin. destruct (Kn _ _ Hin) as [k [ext' [-> Hk]]].
    exists k, ext'. split; [reflexivity | lia].
  - repeat split; cbn [written imageMap imageCounter].
    + intros name buffer Hin. apply in_app_iff in Hin. destruct Hin as [Hin|[Hin|[]]].
      * destruct (Kn _ _ Hin) as [k [ext' [-> Hk]]].
        exists k, ext'. split; [reflexivity | lia].
      * injection Hin as <- <-. exists (S (imageCounter st)), ext. split; [reflexivity | lia].
    + rewrite map_app. cbn [map fst]. apply NoDup_snoc; auto using fresh_name.
    + unfold map_set. intros d path [Hin|Hin].
      * injection Hin as <- <-.
        exists (imageFileName (S (imageCounter st)) ext), imageType, base64Content.
        repeat split; auto. apply in_app_iff. right. now left.
      * destruct (Km _ _ Hin) as [name [t [c [-> [Hd Hw]]]]].
        exists name, t, c. repeat split; auto. apply in_app_iff. now left.
    + unfold map_set. cbn [map snd]. constructor; auto.
      intros Hin. apply in_map_iff in Hin. destruct Hin as [[d path] [Ep Hin]].
      cbn [snd] in Ep. destruct (Km _ _ Hin) as [name [t [c [-> [Hd Hw]]]]].
      cbn [String.append] in Ep. injection Ep as Ep.
      apply (fresh_name st ext K). rewrite <- Ep.
      apply in_map_iff. now exists (name, fromBase64 c).
Qed.

Lemma fold_kept images st :
  kept dataUrl fromBase64 st ->
  kept dataUrl fromBase64 (fold_left (fun st base64Data =>
          snd (saveImageToFile dataUrl fromBase64 writeThrows base64Data st))
        images st).
Proof.
  revert st. induction images as [|d images IH]; intros st K; cbn [fold_left]; auto.
  apply IH. now apply saveImageToFile_kept.
Qed.

(** X17.  Whatever images are saved during an export, in whatever order and
    whichever writes fail: no file of the [images] folder is written twice,
    two different images never get the same path, and the path kept for an
    image is the path of a written file that holds the bytes of that
    image. *)
Theorem saved_images_get_files_of_their_own (images : list string) :
  let st := savedAll dataUrl fromBase64 writeThrows images in
  NoDup (map fst (written st)) /\
  (forall d1 d2 path,
     map_get (imageMap st) d1 = Some path ->
     map_get (imageMap st) d2 = Some path -> d1 = d2) /\
  (forall base64Data path,
     map_get (imageMap st) base64Data = Some path ->
     exists name imageType base64Content,
       path = ("images/" ++ name)%string /\
       dataUrl base64Data = Some (imageType, base64Content) /\
       In (name, fromBase64 base64Content) (written st)).
Proof.
  intros st. destruct (fold_kept images newExport kept_newExport) as [_ [Kw [Km Kp]]].
  fold (savedAll dataUrl fromBase64 writeThrows images) in Kw, Km, Kp. fold st in Kw, Km, Kp.
  repeat split; auto.
  - intros d1 d2 path H1 H2. apply map_get_In in H1, H2.
    eapply same_value_same_key; eauto.
  - intros d path H. apply map_get_In in H. eauto.
Qed.

End SavedImages.
